(** * FFXIV stat calculator: derived values and breakpoint search

    A shallow embedding of [index.js]: the [DerivedValue] class family, the
    [Stat] constructor with its [extra] closure and its [derivedValues]
    method, the [StatBlock] event handlers and the [StatList] catalog,
    followed by the properties of the engine.

    Conventions of the model.
    - A [Decimal] is an exact rational number ([Qc], canonical fractions, so
      that equal numbers are equal terms); it has one zero and no infinite
      value.
    - The relational operators [>=] and [<=] of the two search loops are
      applied to two Decimal objects: the language converts both operands
      with [valueOf], which gives the text of a Decimal, and compares the
      two texts code unit by code unit.
    - A JavaScript function that may raise returns a [Completion].
    - The [while] loops run on fuel, in [Run]; the fuel that
      [Stat.derivedValues] gives them is shown never to be used up.
    - [Stat.Method] is the same method as a transition of the store that
      holds the stat and its specs; it is what a redraw of the page runs. *)

From Stdlib Require Import Ascii String QArith Qcanon Qround ZArith Lia Lqa.
From stdpp Require Import gmap strings list fin_maps numbers.

Local Open Scope string_scope.
Local Open Scope Z_scope.
Local Open Scope Qc_scope.

(** ** Strings *)

Module Text.

(** [a < b] on two strings: the first code unit in which they differ
    decides, and a proper prefix of a string is smaller than the string. *)
Fixpoint lt (a b : string) : bool :=
  match a, b with
  | _, EmptyString => false
  | EmptyString, String _ _ => true
  | String x a', String y b' =>
      if (nat_of_ascii x <? nat_of_ascii y)%nat then true
      else if (nat_of_ascii y <? nat_of_ascii x)%nat then false
      else lt a' b'
  end.

Fixpoint digits_go (fuel : nat) (n : Z) (acc : string) : string :=
  match fuel with
  | O => acc
  | S fuel' =>
      let acc' := String (ascii_of_nat (Z.to_nat (48 + n mod 10))) acc in
      if (n <? 10)%Z then acc' else digits_go fuel' (n / 10)%Z acc'
  end.

(** The decimal digits of a whole number that is not negative. *)
Definition digits (n : Z) : string :=
  digits_go (S (Z.to_nat (Z.log2 n))) n "".

Definition zeros (n : Z) : string :=
  String.concat "" (replicate (Z.to_nat n) "0").

End Text.

(** ** Decimal arithmetic *)

Abbreviation Decimal := Qc (only parsing).

Module Dec.

(** The Decimal class belongs to an arithmetic library that the page loads
    and that is not part of the sources.  [plus], [minus], [times] and
    [dividedBy] are [+], [-], [*] and [/] of [Qc] (spec, sections 2 and 4.1:
    exact decimal arithmetic); every divisor in the sources is a non-zero
    literal. *)

(** [new Decimal(n)] for an integer [n]. *)
Definition of_Z (n : Z) : Decimal := Qc_of_Z n.

(** Modelled from the spec: [x.floor()] of the Decimal library, absent from
    the sources; section 4.1: floor truncates toward negative infinity, not
    toward zero. *)
Definition floor (x : Decimal) : Decimal := Qc_of_Z (Qfloor (this x)).

(** The integer part of [x]: the fraction is dropped, toward zero. *)
Definition truncate (x : Decimal) : Z :=
  if bool_decide (0 ≤ x) then Qfloor (this x) else Qceiling (this x).

(** Modelled from the spec: [x.toDecimalPlaces(dp, Decimal.ROUND_DOWN)] of
    the Decimal library, absent from the sources; section 4.4: rounded down
    to [dp] decimal places, that is, the digits after the [dp]-th decimal
    place are dropped. *)
Definition toDecimalPlaces_ROUND_DOWN (dp : nat) (x : Decimal) : Decimal :=
  Qc_of_Z (truncate (x * Qc_of_Z (10 ^ Z.of_nat dp))) / Qc_of_Z (10 ^ Z.of_nat dp).

(** Modelled from the spec: [x.greaterThanOrEqualTo(y)] of the Decimal
    library, absent from the sources; section 3: breakpoints are computed
    at or above the base value. *)
Definition greaterThanOrEqualTo (x y : Decimal) : bool := bool_decide (y ≤ x).

(** *** The text of a Decimal

    [x.valueOf()] of the Decimal library, absent from the sources, as the
    library documents it: the digits of the number in normal notation, or in
    exponential notation when the exponent of the first digit is -7 or less
    or 21 or more.  The library keeps 20 significant digits; a value of the
    model with more is rounded to 20, half up. *)

(** [e] with [10^e <= p/q < 10^(e+1)], for positive [p] and [q]. *)
Definition exponent (p q : Z) : Z :=
  if (q <=? p)%Z
  then (Z.of_nat (String.length (Text.digits (p / q))) - 1)%Z
  else
    let d := (Z.of_nat (String.length (Text.digits q))
              - Z.of_nat (String.length (Text.digits p)))%Z in
    if (q <=? p * 10 ^ d)%Z then (- d)%Z else (- (d + 1))%Z.

Fixpoint strip_zeros (fuel : nat) (c : Z) : Z :=
  match fuel with
  | O => c
  | S fuel' => if (c mod 10 =? 0)%Z then strip_zeros fuel' (c / 10)%Z else c
  end.

(** The significand of a positive [p/q], rounded half up to 20 digits and
    without its trailing zeros, and the exponent of its first digit. *)
Definition significand (p q : Z) : Z * Z :=
  let e := exponent p q in
  let '(P, Q) := if (e <=? 19)%Z then ((p * 10 ^ (19 - e))%Z, q)
                 else (p, (q * 10 ^ (e - 19))%Z) in
  let c := ((2 * P + Q) / (2 * Q))%Z in
  let '(c, e) := if (10 ^ 20 <=? c)%Z then ((c / 10)%Z, (e + 1)%Z) else (c, e) in
  (strip_zeros 20 c, e).

(** The digits [c] with the exponent [e] as a string. *)
Definition finiteToString (c e : Z) : string :=
  let str := Text.digits c in
  let len := Z.of_nat (String.length str) in
  if ((e <=? -7) || (21 <=? e))%Z then
    (if (1 <? len)%Z
     then substring 0 1 str ++ "." ++ substring 1 (Z.to_nat (len - 1)) str
     else str)
    ++ (if (e <? 0)%Z then "e-" ++ Text.digits (- e)%Z else "e+" ++ Text.digits e)
  else if (e <? 0)%Z then "0." ++ Text.zeros (- e - 1)%Z ++ str
  else if (len <=? e)%Z then str ++ Text.zeros (e + 1 - len)%Z
  else if (e + 1 <? len)%Z
       then substring 0 (Z.to_nat (e + 1)) str ++ "."
            ++ substring (Z.to_nat (e + 1)) (Z.to_nat (len - e - 1)) str
       else str.

Definition valueOf (x : Decimal) : string :=
  let p := Qnum (this x) in
  let q := Zpos (Qden (this x)) in
  if (p =? 0)%Z then "0"
  else
    let '(c, e) := significand (Z.abs p) q in
    (if (p <? 0)%Z then "-" else "") ++ finiteToString c e.

(** The number that the text of [x] spells: [x] itself when it has at most
    20 significant digits. *)
Definition text_value (x : Decimal) : Q :=
  let p := Qnum (this x) in
  let q := Zpos (Qden (this x)) in
  if (p =? 0)%Z then 0%Q
  else
    let '(c, e) := significand (Z.abs p) q in
    let scale := (e + 1 - Z.of_nat (String.length (Text.digits c)))%Z in
    (inject_Z (Z.sgn p * c) * Qpower 10 scale)%Q.

(** [x >= y] and [x <= y] of the language on two Decimal objects.  Neither
    operand is a primitive, so each is converted with its [valueOf] method,
    which returns a string; two strings are compared as strings.  [x >= y]
    is the negation of [x < y], and [x <= y] the negation of [y < x]. *)
Definition ge (x y : Decimal) : bool := negb (Text.lt (valueOf x) (valueOf y)).
Definition le (x y : Decimal) : bool := negb (Text.lt (valueOf y) (valueOf x)).

End Dec.

(** ** JavaScript values and completions *)

(** The values a [hasBreakpoints] property can hold. *)
Inductive JsValue : Type :=
  | JsUndefined
  | JsBool (b : bool).

Definition ToBoolean (v : JsValue) : bool :=
  match v with
  | JsUndefined => false
  | JsBool b => b
  end.

(** [a && b]: the left operand when it is falsy, the right one otherwise. *)
Definition js_and (a b : JsValue) : JsValue :=
  if ToBoolean a then b else a.

(** The Numbers that [parseInt] can return: [NaN], the two infinities,
    the negative zero, and the finite Numbers whose value is a whole
    number. *)
Inductive JsNumber : Type :=
  | JsNaN
  | JsInfinity (negative : bool)
  | JsNegZero
  | JsInt (n : Z).

Definition Number_isNaN (x : JsNumber) : bool :=
  match x with
  | JsNaN => true
  | _ => false
  end.

Inductive JsError : Type :=
  | TypeError      (* a property read or a method call on [undefined] *)
  | DecimalError   (* an argument that is not a number, given to Decimal *)
  | RangeError.    (* a value that is no array length, assigned to [length] *)

(** How the evaluation of an expression ends: with a value or with an
    exception. *)
Inductive Completion (A : Type) : Type :=
  | Normal (a : A)
  | Throw (e : JsError).
Arguments Normal {A} a.
Arguments Throw {A} e.

Global Instance Completion_ret : MRet Completion := λ A a, Normal a.
Global Instance Completion_bind : MBind Completion := λ A B f m,
  match m with
  | Normal a => f a
  | Throw e => Throw e
  end.
Global Instance Completion_fmap : FMap Completion := λ A B f m,
  match m with
  | Normal a => Normal (f a)
  | Throw e => Throw e
  end.

(** A run of code that contains a loop: it completes, or the fuel given to
    the loop is used up before the loop ends. *)
Inductive Run (A : Type) : Type :=
  | Done (c : Completion A)
  | OutOfFuel.
Arguments Done {A} c.
Arguments OutOfFuel {A}.

Global Instance Run_ret : MRet Run := λ A a, Done (Normal a).
Global Instance Run_bind : MBind Run := λ A B f m,
  match m with
  | Done (Normal a) => f a
  | Done (Throw e) => Done (Throw e)
  | OutOfFuel => OutOfFuel
  end.

Global Instance Run_fmap : FMap Run := λ A B f m,
  match m with
  | Done c => Done (f <$> c)
  | OutOfFuel => OutOfFuel
  end.

Global Instance JsValue_eq_dec : EqDecision JsValue.
Proof. solve_decision. Defined.
Global Instance JsError_eq_dec : EqDecision JsError.
Proof. solve_decision. Defined.
Global Instance Completion_eq_dec {A : Type} `{EqDecision A}
  : EqDecision (Completion A).
Proof. solve_decision. Defined.
Global Instance Run_eq_dec {A : Type} `{EqDecision A} : EqDecision (Run A).
Proof. solve_decision. Defined.

(** [while (cond) body], where evaluating [cond] may change the state (the
    post-increment of the loops below) and both may raise. *)
Fixpoint js_while {S : Type} (fuel : nat)
    (cond : S → Completion (bool * S)) (body : S → Completion S)
    (s : S) : Run S :=
  match fuel with
  | O => OutOfFuel
  | Datatypes.S fuel' =>
      '(continue, s1) ← Done (cond s);
      if continue : bool
      then s2 ← Done (body s1); js_while fuel' cond body s2
      else Done (Normal s1)
  end.

(** [array.map(fn)] for a callback that also updates a variable [st] it
    closes over: the elements are visited from left to right. *)
Fixpoint array_map {A B St : Type} (fn : A → St → Run (B * St))
    (array : list A) (st : St) : Run (list B * St) :=
  match array with
  | [] => Done (Normal ([], st))
  | a :: rest =>
      '(b, st1) ← fn a st;
      '(bs, st2) ← array_map fn rest st1;
      Done (Normal (b :: bs, st2))
  end.

(** A piece of code run on a store [S]: how it completes and the store it
    leaves, or [None] when the fuel given to a loop is used up.  An
    exception leaves the store as it was when it was raised. *)
Definition Action (S A : Type) : Type := S → option (Completion A * S).

Global Instance Action_ret {S : Type} : MRet (Action S) :=
  λ A a s, Some (Normal a, s).
Global Instance Action_bind {S : Type} : MBind (Action S) := λ A B f m s,
  match m s with
  | Some (Normal a, s1) => f a s1
  | Some (Throw e, s1) => Some (Throw e, s1)
  | None => None
  end.

(** A read of the store. *)
Definition read_store {S A : Type} (field : S → A) : Action S A :=
  λ s, Some (Normal (field s), s).

(** An expression that does not touch the store. *)
Definition no_effect {S A : Type} (c : Completion A) : Action S A :=
  λ s, Some (c, s).

(** [while (cond) body] on a store; [l] holds the local variables of the
    loop. *)
Fixpoint while_on {S L : Type} (fuel : nat)
    (cond : L → Action S (bool * L)) (body : L → Action S L)
    (l : L) : Action S L :=
  match fuel with
  | O => λ _, None
  | Datatypes.S fuel' =>
      '(continue, l1) ← cond l;
      if continue : bool
      then l2 ← body l1; while_on fuel' cond body l2
      else mret l1
  end.

(** ** Numbers *)

Module Double.

(** The Number nearest to a whole number [n > 0]: [n] itself below 2^53;
    above, the 53 leading bits are kept and the rest is rounded to the
    nearest, ties to even; from 2^1024 on there is none ([Infinity]). *)
Definition nearest (n : Z) : option Z :=
  let b := Z.log2 n in
  if (b <? 53)%Z then Some n
  else
    let sh := (b - 52)%Z in
    let q := Z.shiftr n sh in
    let r := (n - Z.shiftl q sh)%Z in
    let half := Z.shiftl 1 (sh - 1) in
    let q' := if (half <? r)%Z || ((r =? half)%Z && Z.odd q)
              then (q + 1)%Z else q in
    let v := Z.shiftl q' sh in
    if (2 ^ 1024 <=? v)%Z then None else Some v.

(** The Number for the whole number with the given sign and absolute
    value. *)
Definition of_integer (negative : bool) (n : Z) : JsNumber :=
  if (n =? 0)%Z then (if negative then JsNegZero else JsInt 0)
  else match nearest n with
       | Some v => JsInt (if negative then (- v)%Z else v)
       | None => JsInfinity negative
       end.

(** Whether the whole number [v] is read back as the Number [n >= 2^53]: it
    lies within half the distance from [n] to its neighbours, the bounds
    included when the significand of [n] is even. *)
Definition reads_back (n v : Z) : bool :=
  let b := Z.log2 n in
  let u := (2 ^ (b - 52))%Z in
  let d := if (n =? 2 ^ b)%Z then (u / 2)%Z else u in
  if Z.even (n / u)
  then (2 * n - d <=? 2 * v)%Z && (2 * v <=? 2 * n + u)%Z
  else (2 * n - d <? 2 * v)%Z && (2 * v <? 2 * n + u)%Z.

Fixpoint number_of_digits_go (fuel : nat) (n acc : Z) : Z :=
  match fuel with
  | O => acc
  | S fuel' =>
      if (n <? 10)%Z then (acc + 1)%Z
      else number_of_digits_go fuel' (n / 10)%Z (acc + 1)%Z
  end.

Definition number_of_digits (n : Z) : Z :=
  number_of_digits_go (S (Z.to_nat (Z.log2 n))) n 0.

(** The whole number nearest to [n] among those of [k] significant digits
    that are read back as [n]; with none, the same for [k + 1] digits. *)
Fixpoint shortest_from (fuel : nat) (k : Z) (L n : Z) : Z :=
  match fuel with
  | O => n
  | S fuel' =>
      let j := (10 ^ (L - k))%Z in
      let lo := (n / j * j)%Z in
      let hi := (lo + j)%Z in
      match reads_back n lo, reads_back n hi with
      | true, true =>
          if (n - lo <? hi - n)%Z then lo
          else if (hi - n <? n - lo)%Z then hi
          else if Z.even (n / j) then lo else hi
      | true, false => lo
      | false, true => hi
      | false, false => shortest_from fuel' (k + 1)%Z L n
      end
  end.

(** The whole number that [String(n)] spells, for a Number [n] whose value
    is a whole number: [n] itself up to 2^53; above, the fewest digits that
    are read back as [n], followed by zeros. *)
Definition toString_value (n : Z) : Z :=
  let a := Z.abs n in
  if (Z.log2 a <? 53)%Z then n
  else (Z.sgn n * shortest_from 17 1 (number_of_digits a) a)%Z.

(** [ToUint32(n) = n] for the Number [n] nearest to the rational [t]: the
    whole number below 2^32 that [t] is read as, if there is one. *)
Definition uint32_of (t : Q) : option Z :=
  let k := Qfloor (t + (1 # 2))%Q in
  if (k <? 0)%Z || (2 ^ 32 <=? k)%Z then None
  else if (k =? 0)%Z
  then
    let least := (/ inject_Z (2 ^ 1075))%Q in
    if Qle_bool (- least)%Q t && Qle_bool t least then Some 0%Z else None
  else
    let j := Z.log2 k in
    let up := (/ inject_Z (2 ^ (53 - j)))%Q in
    let down := if (k =? 2 ^ j)%Z then (/ inject_Z (2 ^ (54 - j)))%Q else up in
    if Qle_bool (inject_Z k - down)%Q t && Qle_bool t (inject_Z k + up)%Q
    then Some k else None.

End Double.

(** ** The intermediates array *)

(** The [intermediates] array, used as a map from names to results: the
    model keeps the result assigned under each name. *)
Abbreviation Intermediates := (gmap string Decimal) (only parsing).

Module JsArray.

(** [array[name] = value] for a Decimal [value].  An array treats the name
    [length] apart: the value is converted to a Number (through its text)
    and must be a whole number below 2^32, or the assignment raises a
    RangeError.  The model records the value under the name in every other
    case, also under [length], where the array would keep the Number as its
    length and drop the results stored under the indices from it on. *)
Definition set (array : Intermediates) (name : string) (value : Decimal)
    : Completion Intermediates :=
  if bool_decide (name = "length")
  then match Double.uint32_of (Dec.text_value value) with
       | Some _ => Normal (<[name := value]> array)
       | None => Throw RangeError
       end
  else Normal (<[name := value]> array).

End JsArray.

(** ** The DerivedValue classes *)

(** A [calcFn] receives the stat value, the extra value and the
    intermediates; the last argument is [None] when the caller passes only
    two arguments (the parameter is then [undefined]).  It is a function of
    these arguments and changes nothing, as the arrow functions of the
    catalog are: it reads named entries of the intermediates and builds a
    new Decimal. *)
Definition CalcFn : Type :=
  Decimal → Decimal → option Intermediates → Completion Decimal.

Module DerivedValue.

(** The class an object was created from; it selects the
    [hasBreakpoints] getter. *)
Inductive class : Type :=
  | ClassDerivedValue
  | ClassNoBreakpointDerivedValue
  | ClassInvertedDerivedValue
  | ClassSpeedDerivedValue.

Record t : Type := mk {
  cls : class;
  name : string;
  displayName : string;
  calcFn : CalcFn;
  isPercent : bool;
  invertedBreakpoints : bool
}.

(** [new DerivedValue(name, displayName, calcFn)] *)
Definition new (name displayName : string) (calcFn : CalcFn) : t :=
  mk ClassDerivedValue name displayName calcFn true false.

Definition isntPercent (v : t) : t :=
  mk (cls v) (name v) (displayName v) (calcFn v) false (invertedBreakpoints v).

Definition lesserBreakpointDirection (v : t) : Z :=
  if invertedBreakpoints v then 1 else -1.

Definition greaterBreakpointDirection (v : t) : Z :=
  if invertedBreakpoints v then -1 else 1.

(** The getter of [DerivedValue] returns [true]; the one that
    [NoBreakpointDerivedValue] overrides it with evaluates [false] and
    returns nothing. *)
Definition hasBreakpoints (v : t) : JsValue :=
  match cls v with
  | ClassNoBreakpointDerivedValue => JsUndefined
  | _ => JsBool true
  end.

End DerivedValue.

Definition NoBreakpointDerivedValue (name displayName : string)
    (calcFn : CalcFn) : DerivedValue.t :=
  DerivedValue.mk DerivedValue.ClassNoBreakpointDerivedValue
    name displayName calcFn true false.

Definition InvertedDerivedValue (name displayName : string)
    (calcFn : CalcFn) : DerivedValue.t :=
  DerivedValue.mk DerivedValue.ClassInvertedDerivedValue
    name displayName calcFn true true.

(** The [calcFn] that the constructor of [SpeedDerivedValue] builds. *)
Definition speed_calcFn (timeConstant : Decimal) : CalcFn := λ s extra _,
  Normal
    (Dec.toDecimalPlaces_ROUND_DOWN 2
       (Dec.floor ((Dec.of_Z 1000 - extra) * timeConstant / Dec.of_Z 1000)
        / Dec.of_Z 1000)).

Definition SpeedDerivedValue (baseSpeed : string) (timeConstant : Decimal)
    : DerivedValue.t :=
  DerivedValue.mk DerivedValue.ClassSpeedDerivedValue
    baseSpeed baseSpeed (speed_calcFn timeConstant) false true.

(** ** Stat *)

(** The objects that [derivedValues] returns. *)
Module Entry.
Record t : Type := mk {
  name : string;
  value : Decimal;
  hasBreakpoints : JsValue;
  isPercent : bool;
  lesserBreakpoint : option Decimal;
  greaterBreakpoint : option Decimal
}.
Global Instance eq_dec : EqDecision t.
Proof. solve_decision. Defined.
End Entry.

Module Stat.

Record t : Type := mk {
  name : string;
  currentValue : Decimal;
  statBase : Decimal;
  deltaRate : Decimal;
  derivedValueDefns : list DerivedValue.t
}.

(** [new Stat(name, statBase, deltaRate, derivedValueDefns)] *)
Definition new (name : string) (statBase deltaRate : Decimal)
    (derivedValueDefns : list DerivedValue.t) : t :=
  mk name statBase statBase deltaRate derivedValueDefns.

(** [stat.currentValue = x] *)
Definition set_currentValue (x : Decimal) (this : t) : t :=
  mk (name this) x (statBase this) (deltaRate this) (derivedValueDefns this).

Definition levelMod : Decimal := Dec.of_Z 3300.

Definition extra (this : t) (currentValue : Decimal) : Decimal :=
  let delta := currentValue - statBase this in
  Dec.floor (deltaRate this * delta / levelMod).

(** The state of a search loop: the candidate and [breaker]. *)
Definition search_state : Type := Decimal * Z.

(** [v.calcFn(candidate, extra(candidate))] *)
Definition recalc (this : t) (v : DerivedValue.t) (candidate : Decimal)
    : Completion Decimal :=
  DerivedValue.calcFn v candidate (extra this candidate) None.

(** [v.calcFn(bp, extra(bp)) >= realValue && breaker++ < 1e4] *)
Definition lesser_cond (this : t) (v : DerivedValue.t) (realValue : Decimal)
    (s : search_state) : Completion (bool * search_state) :=
  let '(lesserBreakpoint, breaker) := s in
  x ← recalc this v lesserBreakpoint;
  if Dec.ge x realValue
  then Normal (bool_decide (breaker < 10000)%Z, (lesserBreakpoint, (breaker + 1)%Z))
  else Normal (false, (lesserBreakpoint, breaker)).

Definition lesser_body (v : DerivedValue.t) (s : search_state)
    : Completion search_state :=
  let '(lesserBreakpoint, breaker) := s in
  Normal (lesserBreakpoint
          + Dec.of_Z (DerivedValue.lesserBreakpointDirection v), breaker).

(** [v.calcFn(bp, extra(bp)) <= realValue && breaker++ < 1e4] *)
Definition greater_cond (this : t) (v : DerivedValue.t) (realValue : Decimal)
    (s : search_state) : Completion (bool * search_state) :=
  let '(greaterBreakpoint, breaker) := s in
  x ← recalc this v greaterBreakpoint;
  if Dec.le x realValue
  then Normal (bool_decide (breaker < 10000)%Z, (greaterBreakpoint, (breaker + 1)%Z))
  else Normal (false, (greaterBreakpoint, breaker)).

Definition greater_body (v : DerivedValue.t) (s : search_state)
    : Completion search_state :=
  let '(greaterBreakpoint, breaker) := s in
  Normal (greaterBreakpoint
          + Dec.of_Z (DerivedValue.greaterBreakpointDirection v), breaker).

(** The first loop, from [let lesserBreakpoint = this.currentValue] on. *)
Definition lesser_search (fuel : nat) (this : t) (v : DerivedValue.t)
    (realValue : Decimal) : Run Decimal :=
  s ← js_while fuel (lesser_cond this v realValue) (lesser_body v)
        (currentValue this, 0%Z);
  Done (Normal s.1).

(** The second loop, from [let greaterBreakpoint = this.currentValue] on. *)
Definition greater_search (fuel : nat) (this : t) (v : DerivedValue.t)
    (realValue : Decimal) : Run Decimal :=
  s ← js_while fuel (greater_cond this v realValue) (greater_body v)
        (currentValue this, 0%Z);
  Done (Normal s.1).

(** The arrow function given to [derivedValueDefns.map]; it reads and
    updates [intermediates]. *)
Definition derivedValues_fn (fuel : nat) (this : t) (v : DerivedValue.t)
    (intermediates : Intermediates) : Run (Entry.t * Intermediates) :=
  realValue ← Done (DerivedValue.calcFn v (currentValue this)
                      (extra this (currentValue this)) (Some intermediates));
  intermediates ← Done (JsArray.set intermediates (DerivedValue.name v)
                          realValue);
  let aboveMinimum :=
    Dec.greaterThanOrEqualTo (currentValue this) (statBase this) in
  if ToBoolean (js_and (DerivedValue.hasBreakpoints v) (JsBool aboveMinimum))
  then
    lesserBreakpoint ← lesser_search fuel this v realValue;
    greaterBreakpoint ← greater_search fuel this v realValue;
    Done (Normal
      (Entry.mk (DerivedValue.displayName v) realValue (JsBool true)
         (DerivedValue.isPercent v)
         (Some lesserBreakpoint) (Some greaterBreakpoint),
       intermediates))
  else
    Done (Normal
      (Entry.mk (DerivedValue.displayName v) realValue (JsBool false)
         (DerivedValue.isPercent v) None None,
       intermediates)).

Definition derivedValues_with (fuel : nat) (this : t)
    : Run (list Entry.t) :=
  r ← array_map (derivedValues_fn fuel this) (derivedValueDefns this) ∅;
  Done (Normal r.1).

(** One more than the bound of [breaker]: a loop tests its condition at
    most that many times. *)
Definition search_fuel : nat := Z.to_nat 10001.

Definition derivedValues (this : t) : Run (list Entry.t) :=
  derivedValues_with search_fuel this.

(** *** The method on the store

    [derivedValues] once more, as the page runs it: a transition of the
    store that holds the object [this] with the variables of its
    constructor ([statBase], [deltaRate], [derivedValueDefns] and the spec
    objects in it).  Every [this.currentValue], every use of a constructor
    variable and every property of a spec is a read of the store at the
    moment it is evaluated; [intermediates], [realValue], the breakpoints
    and [breaker] are variables of the call. *)
Module Method.

(** [v.field], where [v] is the element [k] of [derivedValueDefns]. *)
Definition spec_field {A : Type} (k : nat) (field : DerivedValue.t → A)
    : Action t A :=
  λ this,
    match derivedValueDefns this !! k with
    | Some v => Some (Normal (field v), this)
    | None => Some (Throw TypeError, this)
    end.

(** [extra(currentValue)] *)
Definition extra (currentValue : Decimal) : Action t Decimal :=
  statBase ← read_store statBase;
  deltaRate ← read_store deltaRate;
  mret (Dec.floor (deltaRate * (currentValue - statBase) / levelMod)).

(** [v.calcFn(candidate, extra(candidate))] *)
Definition recalc (k : nat) (candidate : Decimal) : Action t Decimal :=
  calcFn ← spec_field k DerivedValue.calcFn;
  ex ← extra candidate;
  no_effect (calcFn candidate ex None).

Definition lesser_cond (k : nat) (realValue : Decimal) (s : search_state)
    : Action t (bool * search_state) :=
  let '(lesserBreakpoint, breaker) := s in
  x ← recalc k lesserBreakpoint;
  if Dec.ge x realValue
  then mret (bool_decide (breaker < 10000)%Z, (lesserBreakpoint, (breaker + 1)%Z))
  else mret (false, (lesserBreakpoint, breaker)).

Definition lesser_body (k : nat) (s : search_state) : Action t search_state :=
  let '(lesserBreakpoint, breaker) := s in
  direction ← spec_field k DerivedValue.lesserBreakpointDirection;
  mret (lesserBreakpoint + Dec.of_Z direction, breaker).

Definition greater_cond (k : nat) (realValue : Decimal) (s : search_state)
    : Action t (bool * search_state) :=
  let '(greaterBreakpoint, breaker) := s in
  x ← recalc k greaterBreakpoint;
  if Dec.le x realValue
  then mret (bool_decide (breaker < 10000)%Z, (greaterBreakpoint, (breaker + 1)%Z))
  else mret (false, (greaterBreakpoint, breaker)).

Definition greater_body (k : nat) (s : search_state) : Action t search_state :=
  let '(greaterBreakpoint, breaker) := s in
  direction ← spec_field k DerivedValue.greaterBreakpointDirection;
  mret (greaterBreakpoint + Dec.of_Z direction, breaker).

(** The callback of [map] for the element [k]. *)
Definition derivedValues_fn (fuel : nat) (k : nat)
    (intermediates : Intermediates) : Action t (Entry.t * Intermediates) :=
  calcFn ← spec_field k DerivedValue.calcFn;
  value ← read_store currentValue;
  value' ← read_store currentValue;
  ex ← extra value';
  realValue ← no_effect (calcFn value ex (Some intermediates));
  name ← spec_field k DerivedValue.name;
  intermediates ← no_effect (JsArray.set intermediates name realValue);
  value ← read_store currentValue;
  statBase ← read_store statBase;
  let aboveMinimum := Dec.greaterThanOrEqualTo value statBase in
  hasBreakpoints ← spec_field k DerivedValue.hasBreakpoints;
  if ToBoolean (js_and hasBreakpoints (JsBool aboveMinimum))
  then
    start ← read_store currentValue;
    lesser ← while_on fuel (lesser_cond k realValue) (lesser_body k)
               (start, 0%Z);
    start ← read_store currentValue;
    greater ← while_on fuel (greater_cond k realValue) (greater_body k)
                (start, 0%Z);
    displayName ← spec_field k DerivedValue.displayName;
    isPercent ← spec_field k DerivedValue.isPercent;
    mret (Entry.mk displayName realValue (JsBool true) isPercent
            (Some lesser.1) (Some greater.1),
          intermediates)
  else
    displayName ← spec_field k DerivedValue.displayName;
    isPercent ← spec_field k DerivedValue.isPercent;
    mret (Entry.mk displayName realValue (JsBool false) isPercent None None,
          intermediates).

(** [derivedValueDefns.map(callback)] from the element [k] on, for the
    [remaining] elements of the length read at the start. *)
Fixpoint map_from (fuel : nat) (k remaining : nat)
    (intermediates : Intermediates) : Action t (list Entry.t) :=
  match remaining with
  | O => mret []
  | S remaining' =>
      '(row, intermediates) ← derivedValues_fn fuel k intermediates;
      rows ← map_from fuel (S k) remaining' intermediates;
      mret (row :: rows)
  end.

Definition derivedValues_with (fuel : nat) : Action t (list Entry.t) :=
  len ← read_store (λ this, length (derivedValueDefns this));
  map_from fuel 0 len ∅.

Definition derivedValues : Action t (list Entry.t) :=
  derivedValues_with search_fuel.

End Method.

End Stat.

(** ** StatBlock: the handlers of the input and of the two buttons *)

Module StatBlock.

Section Handlers.

(** The built-in [parseInt], applied to the text of the input. *)
Variable parseInt : string → JsNumber.

(** [new Decimal(input)] for the Number [input], as the Decimal library
    documents it: the Decimal whose digits are those of [String(input)].
    There is none in the model for an infinite [input] (the library gives
    its own [Infinity]) nor for [NaN]; the negative zero gives the zero of
    the model. *)
Definition new_Decimal (input : JsNumber) : option Decimal :=
  match input with
  | JsInt n => Some (Dec.of_Z (Double.toString_value n))
  | JsNegZero => Some (Dec.of_Z 0)
  | JsInfinity _ => None
  | JsNaN => None
  end.

(** [stat.currentValue = new Decimal(Number.isNaN(input) ? '0' : input)];
    [None] when the new value is not a Decimal of the model. *)
Definition oninput (value : string) (stat : Stat.t) : option Stat.t :=
  let input := parseInt value in
  currentValue ← (if Number_isNaN input then Some (Dec.of_Z 0)
                  else new_Decimal input);
  Some (Stat.set_currentValue currentValue stat).

(** The button labelled [-]. *)
Definition onclick_minus (stat : Stat.t) : Stat.t :=
  Stat.set_currentValue (Stat.currentValue stat - Dec.of_Z 1) stat.

(** The button labelled [+]. *)
Definition onclick_plus (stat : Stat.t) : Stat.t :=
  Stat.set_currentValue (Stat.currentValue stat + Dec.of_Z 1) stat.

(** The events of one stat block; [Redraw] is a call of [view], which
    calls [stat.derivedValues()]. *)
Inductive event : Type :=
  | Input (value : string)
  | Minus
  | Plus
  | Redraw.

(** The store after an event and, for a redraw, how the call of
    [derivedValues] completed. *)
Definition step (stat : Stat.t) (e : event)
    : option (Stat.t * option (Completion (list Entry.t))) :=
  match e with
  | Input value => stat' ← oninput value stat; Some (stat', None)
  | Minus => Some (onclick_minus stat, None)
  | Plus => Some (onclick_plus stat, None)
  | Redraw =>
      '(rows, stat') ← Stat.Method.derivedValues stat; Some (stat', Some rows)
  end.

(** The events in order; the completions of the redraws are collected. *)
Fixpoint run (stat : Stat.t) (events : list event)
    : option (Stat.t * list (Completion (list Entry.t))) :=
  match events with
  | [] => Some (stat, [])
  | e :: rest =>
      '(stat1, out) ← step stat e;
      '(stat2, outs) ← run stat1 rest;
      Some (stat2, match out with Some rows => rows :: outs | None => outs end)
  end.

End Handlers.

End StatBlock.

(** A reference [parseInt] for text whose code units are below 256: leading
    white space, an optional sign, an optional [0x] prefix, then the longest
    run of digits; [NaN] when there is no digit, and otherwise the Number
    nearest to the whole number that the digits spell. *)
Module ParseInt.

Definition is_white_space (c : ascii) : bool :=
  let n := nat_of_ascii c in
  bool_decide (n = 32 ∨ n = 9 ∨ n = 10 ∨ n = 11 ∨ n = 12 ∨ n = 13 ∨ n = 160)%nat.

Fixpoint trim_start (s : string) : string :=
  match s with
  | String c rest => if is_white_space c then trim_start rest else s
  | EmptyString => s
  end.

Definition digit (radix : Z) (c : ascii) : option Z :=
  let n := Z.of_nat (nat_of_ascii c) in
  let d :=
    if bool_decide (48 ≤ n ≤ 57)%Z then Some (n - 48)%Z
    else if bool_decide (97 ≤ n ≤ 122)%Z then Some (n - 87)%Z
    else if bool_decide (65 ≤ n ≤ 90)%Z then Some (n - 55)%Z
    else None in
  match d with
  | Some k => if bool_decide (k < radix)%Z then Some k else None
  | None => None
  end.

(** The value of the longest prefix of digits of [s], after [acc]. *)
Fixpoint digits (radix : Z) (s : string) (acc : option Z) : option Z :=
  match s with
  | String c rest =>
      match digit radix c with
      | Some k => digits radix rest (Some (default 0 acc * radix + k)%Z)
      | None => acc
      end
  | EmptyString => acc
  end.

(** The sign, [true] for a minus, and the text after it. *)
Definition strip_sign (s : string) : bool * string :=
  match s with
  | String "-" rest => (true, rest)
  | String "+" rest => (false, rest)
  | _ => (false, s)
  end.

Definition strip_prefix (s : string) : Z * string :=
  match s with
  | String "0" (String "x" rest) => (16%Z, rest)
  | String "0" (String "X" rest) => (16%Z, rest)
  | _ => (10%Z, s)
  end.

Definition parseInt (s : string) : JsNumber :=
  let '(negative, s1) := strip_sign (trim_start s) in
  let '(radix, s2) := strip_prefix s1 in
  match digits radix s2 None with
  | Some n => Double.of_integer negative n
  | None => JsNaN
  end.

Definition is_decimal_digit (c : ascii) : bool :=
  let n := nat_of_ascii c in bool_decide (48 ≤ n ≤ 57)%nat.

(** A text that spells a whole number: an optional sign and one or more
    decimal digits, nothing else. *)
Definition numeric (s : string) : bool :=
  match (strip_sign s).2 with
  | EmptyString => false
  | rest => forallb is_decimal_digit (list_ascii_of_string rest)
  end.

(** A text that starts with a decimal digit, after white space and an
    optional sign. *)
Definition starts_with_digit (s : string) : bool :=
  match (strip_sign (trim_start s)).2 with
  | String c _ => is_decimal_digit c
  | EmptyString => false
  end.

End ParseInt.

(** ** StatList: the catalog *)

Module StatList.

(** [inter.key], the read of a property of the third argument. *)
Definition get (inter : option Intermediates) (key : string)
    : Completion (option Decimal) :=
  match inter with
  | None => Throw TypeError
  | Some m => Normal (m !! key)
  end.

(** [x.times(...)] needs [x] to be an object. *)
Definition receiver (x : option Decimal) : Completion Decimal :=
  match x with
  | None => Throw TypeError
  | Some d => Normal d
  end.

(** A Decimal method refuses an [undefined] argument. *)
Definition argument (x : option Decimal) : Completion Decimal :=
  match x with
  | None => Throw DecimalError
  | Some d => Normal d
  end.

(** [new Decimal(1).plus(inter.rate.times(inter.bonus))] *)
Definition edmg : CalcFn := λ s e inter,
  rate ← get inter "rate";
  rate ← receiver rate;
  bonus ← get inter "bonus";
  bonus ← argument bonus;
  Normal (Dec.of_Z 1 + rate * bonus).

Definition Crit_Rate : DerivedValue.t :=
  DerivedValue.new "rate" "Crit Rate" (λ s extra _,
    Normal ((extra + Dec.of_Z 50) / Dec.of_Z 1000)).

Definition Critical_Hit : Stat.t :=
  Stat.new "Critical Hit" (Dec.of_Z 380) (Dec.of_Z 200) [
    Crit_Rate;
    DerivedValue.new "bonus" "Bonus Dmg" (λ s extra _,
      Normal ((extra + Dec.of_Z 400) / Dec.of_Z 1000));
    NoBreakpointDerivedValue "edmg" "Expected Dmg" edmg
  ].

Definition Direct_Hit : Stat.t :=
  Stat.new "Direct Hit" (Dec.of_Z 380) (Dec.of_Z 550) [
    DerivedValue.new "rate" "DH Hit" (λ s extra _,
      Normal (extra / Dec.of_Z 1000));
    NoBreakpointDerivedValue "bonus" "Bonus Dmg" (λ _ _ _,
      Normal (Q2Qc 0.25));
    NoBreakpointDerivedValue "edmg" "Expected Dmg" edmg
  ].

Definition Determination : Stat.t :=
  Stat.new "Determination" (Dec.of_Z 340) (Dec.of_Z 130) [
    DerivedValue.new "damage mult" "Damage Multiplier" (λ s extra _,
      Normal ((extra + Dec.of_Z 1000) / Dec.of_Z 1000))
  ].

Definition Spell_Skill_Speed : Stat.t :=
  Stat.new "Spell/Skill Speed" (Dec.of_Z 380) (Dec.of_Z 130) [
    DerivedValue.new "mult" "DoT Scalar" (λ s extra _,
      Normal ((extra + Dec.of_Z 1000) / Dec.of_Z 1000));
    SpeedDerivedValue "1.5s" (Dec.of_Z 1500);
    SpeedDerivedValue "2.0s" (Dec.of_Z 2000);
    SpeedDerivedValue "2.5s" (Dec.of_Z 2500);
    SpeedDerivedValue "2.8s" (Dec.of_Z 2800);
    SpeedDerivedValue "3.0s" (Dec.of_Z 3000);
    SpeedDerivedValue "3.5s" (Dec.of_Z 3500);
    SpeedDerivedValue "4.0s" (Dec.of_Z 4000)
  ].

Definition Tenacity : Stat.t :=
  Stat.new "Tenacity" (Dec.of_Z 380) (Dec.of_Z 100) [
    DerivedValue.new "mult" "Damage Multiplier" (λ s extra _,
      Normal ((extra + Dec.of_Z 1000) / Dec.of_Z 1000));
    InvertedDerivedValue "mit" "Mitigation%" (λ s extra _,
      Normal ((Dec.of_Z 1000 - extra) / Dec.of_Z 1000))
  ].

Definition Additional_MP : DerivedValue.t :=
  DerivedValue.isntPercent
    (DerivedValue.new "mp" "Additional MP per Tick" (λ s extra _,
       Normal extra)).

Definition Piety : Stat.t :=
  Stat.new "Piety" (Dec.of_Z 340) (Dec.of_Z 150) [Additional_MP].

Definition Defense : Stat.t :=
  Stat.new "Defense" (Dec.of_Z 0) (Dec.of_Z 15) [
    DerivedValue.new "mit" "Mitigation%" (λ s extra _,
      Normal (extra / Dec.of_Z 100))
  ].

Definition stats : list Stat.t :=
  [Critical_Hit; Direct_Hit; Determination; Spell_Skill_Speed;
   Tenacity; Piety; Defense].

End StatList.

(** ** Notions used in the statements *)

(** The candidate a search tests after [k] steps in direction [dir]. *)
Definition candidate (start : Decimal) (dir : Z) (k : nat) : Decimal :=
  start + Dec.of_Z (Z.of_nat k * dir).

(** A search loop written as a recursion on the number of steps that
    [breaker] still allows; [test] is the first operand of the loop
    condition. *)
Fixpoint bounded_search (test : Decimal → Completion bool) (dir : Z)
    (budget : nat) (c : Decimal) : Completion Decimal :=
  match test c with
  | Throw e => Throw e
  | Normal false => Normal c
  | Normal true =>
      match budget with
      | O => Normal c
      | S budget' => bounded_search test dir budget' (c + Dec.of_Z dir)
      end
  end.

(** The shape the two loops share: [calc] recomputes the derived value at
    a candidate, [cmp] compares it with [realValue]. *)
Definition loop_cond (calc : Decimal → Completion Decimal)
    (cmp : Decimal → bool) (s : Stat.search_state)
    : Completion (bool * Stat.search_state) :=
  let '(bp, breaker) := s in
  x ← calc bp;
  if cmp x
  then Normal (bool_decide (breaker < 10000)%Z, (bp, (breaker + 1)%Z))
  else Normal (false, (bp, breaker)).

Definition loop_body (dir : Z) (s : Stat.search_state)
    : Completion Stat.search_state :=
  let '(bp, breaker) := s in Normal (bp + Dec.of_Z dir, breaker).

(** [v.calcFn(c, extra(c)) >= realValue] *)
Definition lesser_test (stat : Stat.t) (v : DerivedValue.t)
    (realValue c : Decimal) : Completion bool :=
  x ← Stat.recalc stat v c; Normal (Dec.ge x realValue).

(** [v.calcFn(c, extra(c)) <= realValue] *)
Definition greater_test (stat : Stat.t) (v : DerivedValue.t)
    (realValue c : Decimal) : Completion bool :=
  x ← Stat.recalc stat v c; Normal (Dec.le x realValue).

(** The cap of [breaker], as a number of steps. *)
Definition cap : nat := Z.to_nat 10000.

(** The mapping obtained by recording [results], one after the other, each
    under the name of its spec, on top of [m]. *)
Definition recorded_on (m : Intermediates) (specs : list DerivedValue.t)
    (results : list Decimal) : Intermediates :=
  foldl (λ acc p, <[DerivedValue.name p.1 := p.2]> acc) m (zip specs results).

Definition recorded (specs : list DerivedValue.t) (results : list Decimal)
    : Intermediates :=
  recorded_on ∅ specs results.

(** The evaluation of section 4.2 of the spec as the callback performs it:
    for each spec in order, the result of its computeFn on the value, the
    extra value and the intermediates so far; the result is then recorded in
    the array under the name of the spec for the later ones. *)
Fixpoint evaluate (v extra : Decimal) (specs : list DerivedValue.t)
    (intermediatesSoFar : Intermediates) : Completion (list Decimal) :=
  match specs with
  | [] => Normal []
  | s :: rest =>
      result ← DerivedValue.calcFn s v extra (Some intermediatesSoFar);
      intermediates ← JsArray.set intermediatesSoFar (DerivedValue.name s)
                        result;
      results ← evaluate v extra rest intermediates;
      Normal (result :: results)
  end.

(** The record of a derived value that carries no breakpoints. *)
Definition plain_row (s : DerivedValue.t) (result : Decimal) : Entry.t :=
  Entry.mk (DerivedValue.displayName s) result (JsBool false)
    (DerivedValue.isPercent s) None None.

(** The part of [derivedValues_fn] that follows the computation of
    [realValue]. *)
Definition row_for (fuel : nat) (stat : Stat.t) (v : DerivedValue.t)
    (realValue : Decimal) : Run Entry.t :=
  if ToBoolean (js_and (DerivedValue.hasBreakpoints v)
                  (JsBool (Dec.greaterThanOrEqualTo (Stat.currentValue stat)
                             (Stat.statBase stat))))
  then
    lesserBreakpoint ← Stat.lesser_search fuel stat v realValue;
    greaterBreakpoint ← Stat.greater_search fuel stat v realValue;
    Done (Normal
      (Entry.mk (DerivedValue.displayName v) realValue (JsBool true)
         (DerivedValue.isPercent v)
         (Some lesserBreakpoint) (Some greaterBreakpoint)))
  else Done (Normal (plain_row v realValue)).

(** The run [r] of code that leaves the store [s] as it is. *)
Definition on_store {S A : Type} (s : S) (r : Run A)
    : option (Completion A * S) :=
  match r with
  | Done c => Some (c, s)
  | OutOfFuel => None
  end.

(** A run that ended without an exception. *)
Definition completes_normally {A : Type} (r : Run A) : bool :=
  match r with
  | Done (Normal _) => true
  | _ => false
  end.

(** A [calcFn] that gives the same result whatever its third argument. *)
Definition ignores_intermediates (f : CalcFn) : Prop :=
  ∀ s extra inter, f s extra inter = f s extra None.

(** ** Concrete inputs and outputs *)

(** The rows of Critical Hit at its base value 380. *)
Definition Critical_Hit_rows : list Entry.t :=
  [ Entry.mk "Crit Rate" (Q2Qc 0.05) (JsBool true) true
      (Some (Dec.of_Z 379)) (Some (Dec.of_Z 397));
    Entry.mk "Bonus Dmg" (Q2Qc 0.4) (JsBool true) true
      (Some (Dec.of_Z 379)) (Some (Dec.of_Z 397));
    Entry.mk "Expected Dmg" (Q2Qc 1.02) (JsBool false) true None None ].

Definition Crit_Rate_row : Entry.t :=
  Entry.mk "Crit Rate" (Q2Qc 0.05) (JsBool true) true
    (Some (Dec.of_Z 379)) (Some (Dec.of_Z 397)).

(** Piety after the user typed 339, one point below its base 340. *)
Definition Piety_at_339 : Stat.t :=
  Stat.set_currentValue (Dec.of_Z 339) StatList.Piety.

(** The constant bonus of Direct Hit, created with [new DerivedValue], so
    with breakpoints, in a stat of its own. *)
Definition constant_spec : DerivedValue.t :=
  DerivedValue.new "bonus" "Bonus Dmg" (λ _ _ _, Normal (Q2Qc 0.25)).

Definition constant_stat : Stat.t :=
  Stat.new "Direct Hit" (Dec.of_Z 380) (Dec.of_Z 550) [constant_spec].

(** Piety after the user typed 560, where the additional MP is 10, and the
    row that [derivedValues] returns there. *)
Definition Piety_at_560 : Stat.t :=
  Stat.set_currentValue (Dec.of_Z 560) StatList.Piety.

Definition Piety_row_at_560 : Entry.t :=
  Entry.mk "Additional MP per Tick" (Dec.of_Z 10) (JsBool true) false
    (Some (Dec.of_Z 383)) (Some (Dec.of_Z 582)).

(** Piety after the user typed 538, where the additional MP is 9. *)
Definition Piety_at_538 : Stat.t :=
  Stat.set_currentValue (Dec.of_Z 538) StatList.Piety.

Definition Piety_row_at_538 : Entry.t :=
  Entry.mk "Additional MP per Tick" (Dec.of_Z 9) (JsBool true) false
    (Some (Dec.of_Z 537)) (Some (Dec.of_Z 2320)).

(** ** formatDecimal and the differences shown by StatBlock.view *)

Module View.

Section Text.

(** The conversion of a Decimal to a string that a template literal
    applies; it belongs to the Decimal library. *)
Variable toString : Decimal → string.

(** [x.greaterThanOrEqualTo(0) ? `+${x}` : `${x}`] *)
Definition formatDecimal (x : Decimal) : string :=
  if Dec.greaterThanOrEqualTo x (Dec.of_Z 0)
  then "+" ++ toString x
  else toString x.

(** [v.lesserBreakpoint.minus(stat.currentValue)]: a call of a method of
    the field, which raises when the row has no such field. *)
Definition lowerDiff (stat : Stat.t) (v : Entry.t) : Completion Decimal :=
  lesserBreakpoint ← StatList.receiver (Entry.lesserBreakpoint v);
  Normal (lesserBreakpoint - Stat.currentValue stat).

(** [v.greaterBreakpoint.minus(stat.currentValue)] *)
Definition upperDiff (stat : Stat.t) (v : Entry.t) : Completion Decimal :=
  greaterBreakpoint ← StatList.receiver (Entry.greaterBreakpoint v);
  Normal (greaterBreakpoint - Stat.currentValue stat).

(** What the callback of [stat.derivedValues().map] in [view] computes for
    a row besides its label and value: for a row with breakpoints, the two
    breakpoints with their formatted differences from the current value
    (the parts that the template interpolates after [next lowest:] and
    [next highest:]); nothing for a row without. *)
Definition breakpoint_texts (stat : Stat.t) (v : Entry.t)
    : Completion (option ((string * string) * (string * string))) :=
  if ToBoolean (Entry.hasBreakpoints v)
  then
    lower ← lowerDiff stat v;
    upper ← upperDiff stat v;
    lesserBreakpoint ← StatList.receiver (Entry.lesserBreakpoint v);
    greaterBreakpoint ← StatList.receiver (Entry.greaterBreakpoint v);
    Normal (Some ((toString lesserBreakpoint, formatDecimal lower),
                  (toString greaterBreakpoint, formatDecimal upper)))
  else Normal None.

End Text.

End View.

(** ** Further notions used in the statements *)

(** A Decimal that is a whole number. *)
Definition is_integer (x : Decimal) : Prop := ∃ n : Z, x = Dec.of_Z n.

(** A row with its [isPercent] field set to [false]. *)
Definition not_percent (row : Entry.t) : Entry.t :=
  Entry.mk (Entry.name row) (Entry.value row) (Entry.hasBreakpoints row)
    false (Entry.lesserBreakpoint row) (Entry.greaterBreakpoint row).

(** The specs [defns], those marked [true] after a call of
    [isntPercent]. *)
Definition mark_specs (marks : list bool) (defns : list DerivedValue.t)
    : list DerivedValue.t :=
  zip_with (λ (b : bool) d, if b then DerivedValue.isntPercent d else d)
    marks defns.

(** The rows [rows], those marked [true] with [isPercent] set to
    [false]. *)
Definition mark_rows (marks : list bool) (rows : list Entry.t)
    : list Entry.t :=
  zip_with (λ (b : bool) row, if b then not_percent row else row) marks rows.

(** The crit rate under the name [length], in a stat of its own. *)
Definition Crit_Rate_named_length : Stat.t :=
  Stat.new "Critical Hit" (Dec.of_Z 380) (Dec.of_Z 200)
    [ DerivedValue.new "length" "Crit Rate" (λ s extra _,
        Normal ((extra + Dec.of_Z 50) / Dec.of_Z 1000)) ].

(** The mitigation of Tenacity, an inverted spec, and the rows of Tenacity
    at its base value 380. *)
Definition Tenacity_Mitigation : DerivedValue.t :=
  InvertedDerivedValue "mit" "Mitigation%" (λ s extra _,
    Normal ((Dec.of_Z 1000 - extra) / Dec.of_Z 1000)).

Definition Tenacity_Mitigation_row : Entry.t :=
  Entry.mk "Mitigation%" (Dec.of_Z 1) (JsBool true) true
    (Some (Dec.of_Z 413)) (Some (Dec.of_Z 379)).

Definition Tenacity_rows : list Entry.t :=
  [ Entry.mk "Damage Multiplier" (Dec.of_Z 1) (JsBool true) true
      (Some (Dec.of_Z 379)) (Some (Dec.of_Z 413));
    Tenacity_Mitigation_row ].

(** The calcFn of [v] computes [g extra], whatever its other arguments. *)
Definition depends_on_extra (v : DerivedValue.t) (g : Decimal → Decimal)
    : Prop :=
  ∀ s extra inter, DerivedValue.calcFn v s extra inter = Normal (g extra).

(** The value [g (extra c)] of a spec of [stat] is lower [n] steps from any
    [c] in the lesser direction of [v], and higher [n] steps in its greater
    direction. *)
Definition changes_within (stat : Stat.t) (v : DerivedValue.t)
    (g : Decimal → Decimal) (n : nat) : Prop :=
  ∀ c,
    g (Stat.extra stat (candidate c (DerivedValue.lesserBreakpointDirection v) n))
    < g (Stat.extra stat c)
    ∧ g (Stat.extra stat c)
      < g (Stat.extra stat
             (candidate c (DerivedValue.greaterBreakpointDirection v) n)).

(** The value of a speed entry as a function of [extra]. *)
Definition speed_value (timeConstant extra : Decimal) : Decimal :=
  Dec.toDecimalPlaces_ROUND_DOWN 2
    (Dec.floor ((Dec.of_Z 1000 - extra) * timeConstant / Dec.of_Z 1000)
     / Dec.of_Z 1000).

(** The stat [stat] with the specs [defns] in place of its own. *)
Definition with_defns (defns : list DerivedValue.t) (stat : Stat.t) : Stat.t :=
  Stat.mk (Stat.name stat) (Stat.currentValue stat) (Stat.statBase stat)
    (Stat.deltaRate stat) defns.

(** * Properties *)

(** ** Decimal arithmetic *)

Lemma of_Z_add (a b : Z) : Dec.of_Z (a + b) = Dec.of_Z a + Dec.of_Z b.
Proof. apply Z2Qc_inj_add. Qed.

Lemma floor_of_Z (n : Z) : Dec.floor (Dec.of_Z n) = Dec.of_Z n.
Proof.
  unfold Dec.floor, Dec.of_Z. f_equal. apply Qfloor_Z.
Qed.

Lemma floor_bounds (x : Decimal) :
  ∃ n : Z, Dec.floor x = Dec.of_Z n ∧ Dec.of_Z n ≤ x ∧ x < Dec.of_Z (n + 1).
Proof.
  exists (Qfloor (this x)). split; [done|]. split.
  - unfold Qcle, Dec.of_Z, Qc_of_Z. simpl. apply Qfloor_le.
  - unfold Qclt, Dec.of_Z, Qc_of_Z. simpl. apply Qlt_floor.
Qed.

(** No string is smaller than itself, so a Decimal compares [>=] and [<=]
    with itself. *)
Lemma text_lt_irrefl (s : string) : Text.lt s s = false.
Proof.
  induction s as [|c s IH]; simpl; [done|].
  by rewrite Nat.ltb_irrefl.
Qed.

Lemma ge_refl (x : Decimal) : Dec.ge x x = true.
Proof. unfold Dec.ge. by rewrite text_lt_irrefl. Qed.

Lemma le_refl (x : Decimal) : Dec.le x x = true.
Proof. unfold Dec.le. by rewrite text_lt_irrefl. Qed.

Lemma candidate_0 (start : Decimal) (dir : Z) : candidate start dir 0 = start.
Proof.
  unfold candidate. rewrite Z.mul_0_l. unfold Dec.of_Z.
  rewrite Z2Qc_inj_0. apply Qcplus_0_r.
Qed.

Lemma candidate_S (start : Decimal) (dir : Z) (k : nat) :
  candidate (start + Dec.of_Z dir) dir k = candidate start dir (S k).
Proof.
  unfold candidate. rewrite Nat2Z.inj_succ.
  replace (Z.succ (Z.of_nat k) * dir)%Z with (dir + Z.of_nat k * dir)%Z by lia.
  rewrite of_Z_add. ring.
Qed.

(** ** Completions and runs *)

Lemma run_bind_normal {A B : Type} (m : Run A) (f : A → Run B) (b : B) :
  m ≫= f = Done (Normal b) ↔ ∃ a, m = Done (Normal a) ∧ f a = Done (Normal b).
Proof.
  split.
  - destruct m as [[a|e]|]; simpl; [eauto | discriminate | discriminate].
  - intros (a & -> & Hf). exact Hf.
Qed.

Lemma Done_inj {A : Type} (c c' : Completion A) : Done c = Done c' → c = c'.
Proof. by intros [= ->]. Qed.

Lemma completion_bind_normal {A B : Type} (m : Completion A)
    (f : A → Completion B) (b : B) :
  m ≫= f = Normal b ↔ ∃ a, m = Normal a ∧ f a = Normal b.
Proof.
  split.
  - destruct m as [a|e]; simpl; [eauto | discriminate].
  - intros (a & -> & Hf). exact Hf.
Qed.

(** ** The search loops *)

Section BoundedSearch.

Variable test : Decimal → Completion bool.
Variable dir : Z.

Lemma bounded_search_normal (n : nat) (c r : Decimal) :
  bounded_search test dir n c = Normal r →
  ∃ k : nat,
    (k ≤ n)%nat ∧ r = candidate c dir k ∧
    (∀ j : nat, (j < k)%nat → test (candidate c dir j) = Normal true) ∧
    (test r = Normal false ∨ (k = n ∧ test r = Normal true)).
Proof.
  revert c. induction n as [|n IH]; intros c; simpl.
  - destruct (test c) as [[|]|e] eqn:Ht; intros [= <-]; exists 0%nat;
      rewrite candidate_0; (split; [lia|]); (split; [done|]);
      (split; [intros j Hj; lia|]); auto.
  - destruct (test c) as [[|]|e] eqn:Ht; [|intros [= <-]|discriminate].
    + intros Hs. destruct (IH _ Hs) as (k & Hk & -> & Hbefore & Hlast).
      exists (S k). rewrite candidate_S in *.
      split; [lia|]. split; [done|]. split.
      * intros [|j] Hj; [by rewrite candidate_0|].
        rewrite <- candidate_S. apply Hbefore. lia.
      * destruct Hlast as [?|[-> ?]]; auto.
    + exists 0%nat. rewrite candidate_0.
      split; [lia|]. split; [done|]. split; [intros j Hj; lia|]. auto.
Qed.

Lemma bounded_search_throw (n : nat) (c : Decimal) (e : JsError) :
  bounded_search test dir n c = Throw e →
  ∃ k : nat, (k ≤ n)%nat ∧ test (candidate c dir k) = Throw e.
Proof.
  revert c. induction n as [|n IH]; intros c; simpl.
  - destruct (test c) as [[|]|e'] eqn:Ht; [discriminate..|].
    intros [= <-]. exists 0%nat. rewrite candidate_0. split; [lia|done].
  - destruct (test c) as [[|]|e'] eqn:Ht; [|discriminate|].
    + intros Hs. destruct (IH _ Hs) as (k & Hk & Hthrow).
      exists (S k). rewrite <- candidate_S. split; [lia|done].
    + intros [= <-]. exists 0%nat. rewrite candidate_0. split; [lia|done].
Qed.

(** When every candidate passes the test, the search stops at the cap and
    returns the candidate it reached there. *)
Lemma bounded_search_capped (n : nat) (c : Decimal) :
  (∀ j : nat, (j ≤ n)%nat → test (candidate c dir j) = Normal true) →
  bounded_search test dir n c = Normal (candidate c dir n).
Proof.
  revert c. induction n as [|n IH]; intros c Hall; simpl.
  - rewrite <- (candidate_0 c dir) at 1. rewrite (Hall 0%nat) by lia.
    by rewrite candidate_0.
  - rewrite <- (candidate_0 c dir) at 1. rewrite (Hall 0%nat) by lia.
    rewrite IH; [by rewrite candidate_S|].
    intros j Hj. rewrite candidate_S. apply Hall. lia.
Qed.

(** The loop of the sources and the recursion on the remaining steps. *)
Variable calc : Decimal → Completion Decimal.
Variable cmp : Decimal → bool.
Hypothesis test_calc : ∀ c, test c = (x ← calc c; Normal (cmp x)).

Lemma js_while_bounded (n fuel : nat) (c : Decimal) :
  (n ≤ cap)%nat → (n < fuel)%nat →
  (s ← js_while fuel (loop_cond calc cmp) (loop_body dir)
         (c, 10000 - Z.of_nat n)%Z;
   Done (Normal s.1))
  = Done (bounded_search test dir n c).
Proof.
  revert fuel c. induction n as [|n IH]; intros [|fuel] c Hn Hfuel;
    try lia; simpl; rewrite test_calc; destruct (calc c) as [x|e];
    simpl; try done; destruct (cmp x); simpl; try done.
  rewrite bool_decide_eq_true_2 by (unfold cap in Hn; lia). simpl.
  replace (10000 - Z.of_nat (S n) + 1)%Z with (10000 - Z.of_nat n)%Z by lia.
  apply IH; lia.
Qed.

End BoundedSearch.

Lemma lesser_search_bounded (fuel : nat) (stat : Stat.t) (v : DerivedValue.t)
    (realValue : Decimal) :
  (cap < fuel)%nat →
  Stat.lesser_search fuel stat v realValue
  = Done (bounded_search (lesser_test stat v realValue)
            (DerivedValue.lesserBreakpointDirection v) cap
            (Stat.currentValue stat)).
Proof.
  intros Hfuel. unfold Stat.lesser_search.
  change (Stat.lesser_cond stat v realValue)
    with (loop_cond (Stat.recalc stat v) (λ x, Dec.ge x realValue)).
  change (Stat.lesser_body v)
    with (loop_body (DerivedValue.lesserBreakpointDirection v)).
  change 0%Z with (10000 - Z.of_nat cap)%Z.
  by apply js_while_bounded.
Qed.

Lemma greater_search_bounded (fuel : nat) (stat : Stat.t) (v : DerivedValue.t)
    (realValue : Decimal) :
  (cap < fuel)%nat →
  Stat.greater_search fuel stat v realValue
  = Done (bounded_search (greater_test stat v realValue)
            (DerivedValue.greaterBreakpointDirection v) cap
            (Stat.currentValue stat)).
Proof.
  intros Hfuel. unfold Stat.greater_search.
  change (Stat.greater_cond stat v realValue)
    with (loop_cond (Stat.recalc stat v) (λ x, Dec.le x realValue)).
  change (Stat.greater_body v)
    with (loop_body (DerivedValue.greaterBreakpointDirection v)).
  change 0%Z with (10000 - Z.of_nat cap)%Z.
  by apply js_while_bounded.
Qed.

Lemma lesser_test_is stat v realValue c (b : bool) :
  lesser_test stat v realValue c = Normal b ↔
  ∃ x, Stat.recalc stat v c = Normal x ∧ Dec.ge x realValue = b.
Proof.
  unfold lesser_test. rewrite completion_bind_normal. split.
  - intros (x & Hx & [= Hge]). by exists x.
  - intros (x & Hx & Hge). exists x. split; [done|]. by f_equal.
Qed.

Lemma greater_test_is stat v realValue c (b : bool) :
  greater_test stat v realValue c = Normal b ↔
  ∃ x, Stat.recalc stat v c = Normal x ∧ Dec.le x realValue = b.
Proof.
  unfold greater_test. rewrite completion_bind_normal. split.
  - intros (x & Hx & [= Hle]). by exists x.
  - intros (x & Hx & Hle). exists x. split; [done|]. by f_equal.
Qed.

(** What a lesser search that completes normally has established. *)
Lemma lesser_search_normal (fuel : nat) (stat : Stat.t) (v : DerivedValue.t)
    (realValue lesser : Decimal) :
  (cap < fuel)%nat →
  Stat.lesser_search fuel stat v realValue = Done (Normal lesser) →
  ∃ k : nat,
    (k ≤ cap)%nat ∧
    lesser = candidate (Stat.currentValue stat)
               (DerivedValue.lesserBreakpointDirection v) k ∧
    (∀ j : nat, (j < k)%nat →
       ∃ x, Stat.recalc stat v
              (candidate (Stat.currentValue stat)
                 (DerivedValue.lesserBreakpointDirection v) j) = Normal x
            ∧ Dec.ge x realValue = true) ∧
    (∃ x, Stat.recalc stat v lesser = Normal x
          ∧ (Dec.ge x realValue = false
             ∨ (k = cap ∧ Dec.ge x realValue = true))).
Proof.
  intros Hfuel. rewrite lesser_search_bounded by done. intros Hs%Done_inj.
  apply bounded_search_normal in Hs as (k & Hk & -> & Hbefore & Hlast).
  exists k. split; [done|]. split; [done|]. split.
  - intros j Hj. apply lesser_test_is. by apply Hbefore.
  - destruct Hlast as [Hl|[-> Hl]].
    + apply lesser_test_is in Hl as (x & ? & ?). eauto.
    + apply lesser_test_is in Hl as (x & ? & ?). eauto 6.
Qed.

(** What a greater search that completes normally has established. *)
Lemma greater_search_normal (fuel : nat) (stat : Stat.t) (v : DerivedValue.t)
    (realValue greater : Decimal) :
  (cap < fuel)%nat →
  Stat.greater_search fuel stat v realValue = Done (Normal greater) →
  ∃ k : nat,
    (k ≤ cap)%nat ∧
    greater = candidate (Stat.currentValue stat)
                (DerivedValue.greaterBreakpointDirection v) k ∧
    (∀ j : nat, (j < k)%nat →
       ∃ x, Stat.recalc stat v
              (candidate (Stat.currentValue stat)
                 (DerivedValue.greaterBreakpointDirection v) j) = Normal x
            ∧ Dec.le x realValue = true) ∧
    (∃ x, Stat.recalc stat v greater = Normal x
          ∧ (Dec.le x realValue = false
             ∨ (k = cap ∧ Dec.le x realValue = true))).
Proof.
  intros Hfuel. rewrite greater_search_bounded by done. intros Hs%Done_inj.
  apply bounded_search_normal in Hs as (k & Hk & -> & Hbefore & Hlast).
  exists k. split; [done|]. split; [done|]. split.
  - intros j Hj. apply greater_test_is. by apply Hbefore.
  - destruct Hlast as [Hl|[-> Hl]].
    + apply greater_test_is in Hl as (x & ? & ?). eauto.
    + apply greater_test_is in Hl as (x & ? & ?). eauto 6.
Qed.

(** ** The structure of [derivedValues] *)

(** An assignment to the array that does not raise has recorded the value
    under the name. *)
Lemma array_set_normal (m m' : Intermediates) (name : string) (x : Decimal) :
  JsArray.set m name x = Normal m' → m' = <[name := x]> m.
Proof.
  unfold JsArray.set. destruct (bool_decide _); [|by intros [= <-]].
  destruct (Double.uint32_of _); [by intros [= <-]|discriminate].
Qed.

(** It can only raise under the name [length], and then a RangeError. *)
Lemma array_set_throw (m : Intermediates) (name : string) (x : Decimal)
    (e : JsError) :
  JsArray.set m name x = Throw e →
  e = RangeError ∧ name = "length"
  ∧ Double.uint32_of (Dec.text_value x) = None.
Proof.
  unfold JsArray.set. destruct (bool_decide_reflect (name = "length")) as [->|_];
    [|discriminate].
  destruct (Double.uint32_of _); [discriminate|]. by intros [= <-].
Qed.

Lemma derivedValues_fn_row (fuel : nat) (stat : Stat.t) (v : DerivedValue.t)
    (m : Intermediates) :
  Stat.derivedValues_fn fuel stat v m
  = (realValue ← Done (DerivedValue.calcFn v (Stat.currentValue stat)
                         (Stat.extra stat (Stat.currentValue stat)) (Some m));
     m' ← Done (JsArray.set m (DerivedValue.name v) realValue);
     row ← row_for fuel stat v realValue;
     Done (Normal (row, m'))).
Proof.
  unfold Stat.derivedValues_fn, row_for.
  destruct (DerivedValue.calcFn _ _ _ _) as [realValue|e]; simpl; [|done].
  destruct (JsArray.set _ _ _) as [m'|e]; simpl; [|done].
  destruct (ToBoolean _); [|done].
  destruct (Stat.lesser_search _ _ _ _) as [[l|e]|]; simpl; [|done..].
  by destruct (Stat.greater_search _ _ _ _) as [[g|e]|].
Qed.

Lemma recorded_on_cons (m : Intermediates) (s : DerivedValue.t) (r : Decimal)
    (specs : list DerivedValue.t) (results : list Decimal) :
  recorded_on m (s :: specs) (r :: results)
  = recorded_on (<[DerivedValue.name s := r]> m) specs results.
Proof. reflexivity. Qed.

(** Entry by entry: the value is the result of the spec on the intermediates
    recorded so far, and the row is the one built from that value. *)
Lemma array_map_rows (fuel : nat) (stat : Stat.t)
    (defns : list DerivedValue.t) (m m' : Intermediates) (rows : list Entry.t) :
  array_map (Stat.derivedValues_fn fuel stat) defns m = Done (Normal (rows, m')) →
  length rows = length defns ∧
  ∀ (i : nat) (v : DerivedValue.t) (row : Entry.t),
    defns !! i = Some v → rows !! i = Some row →
    DerivedValue.calcFn v (Stat.currentValue stat)
      (Stat.extra stat (Stat.currentValue stat))
      (Some (recorded_on m (take i defns) (take i (Entry.value <$> rows))))
    = Normal (Entry.value row)
    ∧ row_for fuel stat v (Entry.value row) = Done (Normal row).
Proof.
  revert m rows. induction defns as [|d defns IH]; intros m rows; simpl.
  - intros [= <- <-]. split; [done|]. intros i v row Hv. by destruct i.
  - rewrite derivedValues_fn_row.
    intros Hrun. apply run_bind_normal in Hrun as ([row0 m1] & Hfn & Hrest).
    apply run_bind_normal in Hfn as (realValue & Hcalc & Hfn).
    apply run_bind_normal in Hfn as (m1' & Hset & Hfn).
    apply run_bind_normal in Hfn as (row0' & Hrow & [= -> ->]).
    apply run_bind_normal in Hrest as ([rows' m2] & Hrest & [= <- <-]).
    apply Done_inj, array_set_normal in Hset as ->.
    destruct (IH _ _ Hrest) as [Hlen Hidx]. injection Hcalc as Hcalc.
    assert (Entry.value row0 = realValue) as Hval.
    { unfold row_for in Hrow. destruct (ToBoolean _).
      - apply run_bind_normal in Hrow as (l & _ & Hrow).
        apply run_bind_normal in Hrow as (g & _ & [= <-]). done.
      - by injection Hrow as <-. }
    split; [simpl; by rewrite Hlen|].
    intros [|i] v row; simpl.
    + intros [= <-] [= <-]. rewrite Hval. done.
    + intros Hv Hr. rewrite recorded_on_cons, Hval. by apply Hidx.
Qed.

Lemma derivedValues_rows (fuel : nat) (stat : Stat.t) (rows : list Entry.t) :
  Stat.derivedValues_with fuel stat = Done (Normal rows) →
  length rows = length (Stat.derivedValueDefns stat) ∧
  ∀ (i : nat) (v : DerivedValue.t) (row : Entry.t),
    Stat.derivedValueDefns stat !! i = Some v → rows !! i = Some row →
    DerivedValue.calcFn v (Stat.currentValue stat)
      (Stat.extra stat (Stat.currentValue stat))
      (Some (recorded (take i (Stat.derivedValueDefns stat))
               (take i (Entry.value <$> rows))))
    = Normal (Entry.value row)
    ∧ row_for fuel stat v (Entry.value row) = Done (Normal row).
Proof.
  unfold Stat.derivedValues_with. intros Hrun.
  apply run_bind_normal in Hrun as ([rows' m'] & Hmap & [= <-]).
  by apply array_map_rows in Hmap.
Qed.

Lemma row_for_breakpoints (fuel : nat) (stat : Stat.t) (v : DerivedValue.t)
    (realValue : Decimal) (row : Entry.t) :
  DerivedValue.hasBreakpoints v = JsBool true →
  Stat.statBase stat ≤ Stat.currentValue stat →
  row_for fuel stat v realValue = Done (Normal row) →
  ∃ lesser greater : Decimal,
    Stat.lesser_search fuel stat v realValue = Done (Normal lesser) ∧
    Stat.greater_search fuel stat v realValue = Done (Normal greater) ∧
    row = Entry.mk (DerivedValue.displayName v) realValue (JsBool true)
            (DerivedValue.isPercent v) (Some lesser) (Some greater).
Proof.
  intros Hhas Habove. unfold row_for, Dec.greaterThanOrEqualTo.
  rewrite Hhas, bool_decide_eq_true_2 by done. simpl.
  intros Hrow. apply run_bind_normal in Hrow as (l & Hl & Hrow).
  apply run_bind_normal in Hrow as (g & Hg & [= <-]). eauto.
Qed.

Lemma row_for_plain (fuel : nat) (stat : Stat.t) (v : DerivedValue.t)
    (realValue : Decimal) :
  DerivedValue.hasBreakpoints v = JsUndefined
  ∨ Stat.currentValue stat < Stat.statBase stat →
  row_for fuel stat v realValue = Done (Normal (plain_row v realValue)).
Proof.
  unfold row_for, Dec.greaterThanOrEqualTo. intros [->|Hbelow]; [done|].
  rewrite bool_decide_eq_false_2 by (by apply Qclt_not_le).
  by destruct (DerivedValue.hasBreakpoints v) as [|[|]].
Qed.

Lemma hasBreakpoints_cases (v : DerivedValue.t) :
  DerivedValue.hasBreakpoints v = JsBool true
  ∨ DerivedValue.hasBreakpoints v = JsUndefined.
Proof. unfold DerivedValue.hasBreakpoints. destruct (DerivedValue.cls v); auto. Qed.

(** ** The scenarios of the spec, run on the model *)

(** Direct Hit at its base 380: rate 0, the constant bonus 0.25, expected
    damage 1. *)
Example Direct_Hit_at_base :
  Stat.derivedValues StatList.Direct_Hit
  = Done (Normal
      [ Entry.mk "DH Hit" (Dec.of_Z 0) (JsBool true) true
          (Some (Dec.of_Z 379)) (Some (Dec.of_Z 386));
        Entry.mk "Bonus Dmg" (Q2Qc 0.25) (JsBool false) true None None;
        Entry.mk "Expected Dmg" (Dec.of_Z 1) (JsBool false) true None None ]).
Proof. compute_done. Qed.

(** Piety at its base 340: no additional MP, not a percentage. *)
Example Piety_at_base :
  Stat.derivedValues StatList.Piety
  = Done (Normal
      [ Entry.mk "Additional MP per Tick" (Dec.of_Z 0) (JsBool true) false
          (Some (Dec.of_Z 339)) (Some (Dec.of_Z 362)) ]).
Proof. compute_done. Qed.

(** Tenacity at its base 380: the mitigation is inverted, so its lesser
    breakpoint lies above the current value and its greater one below. *)
Example Tenacity_at_base :
  Stat.derivedValues StatList.Tenacity
  = Done (Normal
      [ Entry.mk "Damage Multiplier" (Dec.of_Z 1) (JsBool true) true
          (Some (Dec.of_Z 379)) (Some (Dec.of_Z 413));
        Entry.mk "Mitigation%" (Dec.of_Z 1) (JsBool true) true
          (Some (Dec.of_Z 413)) (Some (Dec.of_Z 379)) ]).
Proof. compute_done. Qed.

(** The searches call the calcFn with two arguments: a spec that reads the
    intermediates, declared with breakpoints, raises in the first search. *)
Example edmg_with_breakpoints_raises :
  Stat.derivedValues
    (Stat.new "Critical Hit" (Dec.of_Z 380) (Dec.of_Z 200)
       [ StatList.Crit_Rate;
         DerivedValue.new "bonus" "Bonus Dmg" (λ s extra _,
           Normal ((extra + Dec.of_Z 400) / Dec.of_Z 1000));
         DerivedValue.new "edmg" "Expected Dmg" StatList.edmg ])
  = Done (Throw TypeError).
Proof. compute_done. Qed.

(** ** The extra value and the speed formula *)

Lemma of_Z_100_pos : 0 < Dec.of_Z 100.
Proof. done. Qed.

Lemma truncate_bounds (x : Decimal) :
  (0 ≤ x → Dec.of_Z (Dec.truncate x) ≤ x ∧ x < Dec.of_Z (Dec.truncate x + 1)) ∧
  (x < 0 → Dec.of_Z (Dec.truncate x - 1) < x ∧ x ≤ Dec.of_Z (Dec.truncate x)).
Proof.
  unfold Dec.truncate. split; intros Hx.
  - rewrite bool_decide_eq_true_2 by done.
    destruct (floor_bounds x) as (n & Hn & ? & ?).
    unfold Dec.floor, Dec.of_Z in Hn. apply Z2Qc_inj in Hn as ->. done.
  - rewrite bool_decide_eq_false_2 by (by apply Qclt_not_le). split.
    + unfold Qclt, Dec.of_Z, Qc_of_Z. simpl. apply Qceiling_lt.
    + unfold Qcle, Dec.of_Z, Qc_of_Z. simpl. apply Qle_ceiling.
Qed.

Lemma hundredths_le (a y : Decimal) :
  a ≤ y * Dec.of_Z 100 ↔ a / Dec.of_Z 100 ≤ y.
Proof.
  rewrite (Qcmult_le_mono_pos_r (a / Dec.of_Z 100) y (Dec.of_Z 100))
    by apply of_Z_100_pos.
  replace (a / Dec.of_Z 100 * Dec.of_Z 100) with a; [done|].
  field. done.
Qed.

Lemma hundredths_lt (a y : Decimal) :
  y * Dec.of_Z 100 < a ↔ y < a / Dec.of_Z 100.
Proof. rewrite !Qclt_nge. by rewrite hundredths_le. Qed.

Lemma hundredths_lt_l (a y : Decimal) :
  a < y * Dec.of_Z 100 ↔ a / Dec.of_Z 100 < y.
Proof.
  rewrite (Qcmult_lt_mono_pos_r (a / Dec.of_Z 100) y (Dec.of_Z 100))
    by apply of_Z_100_pos.
  replace (a / Dec.of_Z 100 * Dec.of_Z 100) with a; [done|].
  field. done.
Qed.

Lemma hundredths_le_r (a y : Decimal) :
  y * Dec.of_Z 100 ≤ a ↔ y ≤ a / Dec.of_Z 100.
Proof. rewrite !Qcle_ngt. by rewrite hundredths_lt_l. Qed.

Lemma extra_at_base (stat : Stat.t) :
  Stat.extra stat (Stat.statBase stat) = Dec.of_Z 0.
Proof.
  unfold Stat.extra.
  replace (Stat.deltaRate stat * (Stat.statBase stat - Stat.statBase stat)
           / Stat.levelMod) with (Dec.of_Z 0); [apply floor_of_Z|].
  unfold Dec.of_Z, Qcdiv. rewrite Z2Qc_inj_0. ring.
Qed.

(** C2: for every statistic and every candidate value, [extra] is the
    integer [n] with [n <= deltaRate * (v - statBase) / 3300 < n + 1], that
    is the floor toward negative infinity of the exact quotient; it is 0 at
    the base value, and -1 (not 0) one point below the base of Critical
    Hit. *)
Theorem extra_is_floor_of_scaled_delta (stat : Stat.t) (v : Decimal) :
  (∃ n : Z,
     Stat.extra stat v = Dec.of_Z n ∧
     Dec.of_Z n ≤ Stat.deltaRate stat * (v - Stat.statBase stat) / Dec.of_Z 3300 ∧
     Stat.deltaRate stat * (v - Stat.statBase stat) / Dec.of_Z 3300 < Dec.of_Z (n + 1))
  ∧ Stat.extra stat (Stat.statBase stat) = Dec.of_Z 0
  ∧ Stat.extra StatList.Critical_Hit (Dec.of_Z 379) = Dec.of_Z (-1).
Proof.
  split; [|split].
  - apply floor_bounds.
  - apply extra_at_base.
  - apply Qc_is_canon. reflexivity.
Qed.

(** C4: the value of a speed entry is the number of hundredths [m / 100]
    obtained from [y = floor((1000 - extra) * timeConstant / 1000) / 1000]
    by dropping the digits after the second decimal place, so that
    [m / 100 <= y < (m + 1) / 100] when [y] is not negative; the entry is
    not a percentage and its search directions are the inverted ones (+1 for
    the lesser breakpoint, -1 for the greater one); the 2.5s entry of
    Spell/Skill Speed at 380 has the value 2.5. *)
Theorem speed_value_formula (baseSpeed : string)
    (timeConstant s extra : Decimal) (inter : option Intermediates) :
  let v := SpeedDerivedValue baseSpeed timeConstant in
  let y := Dec.floor ((Dec.of_Z 1000 - extra) * timeConstant / Dec.of_Z 1000)
           / Dec.of_Z 1000 in
  (∃ m : Z,
     DerivedValue.calcFn v s extra inter = Normal (Dec.of_Z m / Dec.of_Z 100) ∧
     (0 ≤ y → Dec.of_Z m / Dec.of_Z 100 ≤ y ∧ y < Dec.of_Z (m + 1) / Dec.of_Z 100) ∧
     (y < 0 → Dec.of_Z (m - 1) / Dec.of_Z 100 < y ∧ y ≤ Dec.of_Z m / Dec.of_Z 100))
  ∧ DerivedValue.isPercent v = false
  ∧ DerivedValue.hasBreakpoints v = JsBool true
  ∧ DerivedValue.lesserBreakpointDirection v = 1%Z
  ∧ DerivedValue.greaterBreakpointDirection v = (-1)%Z
  ∧ Stat.currentValue StatList.Spell_Skill_Speed = Dec.of_Z 380
  ∧ Stat.extra StatList.Spell_Skill_Speed (Dec.of_Z 380) = Dec.of_Z 0
  ∧ (λ rows : list Entry.t, (λ row, (Entry.name row, Entry.value row)) <$> rows !! 3%nat)
      <$> Stat.derivedValues StatList.Spell_Skill_Speed
    = Done (Normal (Some ("2.5s", Q2Qc 2.5))).
Proof.
  intros v y. split; [|do 6 (split; [reflexivity|])].
  - exists (Dec.truncate (y * Dec.of_Z 100)). split; [done|].
    destruct (truncate_bounds (y * Dec.of_Z 100)) as [Hpos Hneg]. split.
    + intros Hy. destruct Hpos as [Hlo Hhi].
      { rewrite <- (Qcmult_0_l (Dec.of_Z 100)).
        apply Qcmult_le_mono_nonneg_r; [apply Qclt_le_weak, of_Z_100_pos|done]. }
      split; [by apply hundredths_le | by apply hundredths_lt].
    + intros Hy. destruct Hneg as [Hlo Hhi].
      { rewrite <- (Qcmult_0_l (Dec.of_Z 100)).
        by apply Qcmult_lt_mono_pos_r; [apply of_Z_100_pos|]. }
      split; [by apply hundredths_lt_l | by apply hundredths_le_r].
  - compute_done.
Qed.

(** ** Termination of the searches *)

(** C5: with any fuel above the cap, each of the two searches ends, for
    every spec and every starting value: it never runs out of fuel.  When it
    completes normally it returns a candidate at most 10,000 steps from the
    starting value, an exception can only come from the calcFn at one of the
    candidates, and when every candidate up to the cap passes the test of
    the loop (the comparison [>=], respectively [<=], of the recomputed
    value with [realValue], as the loop performs it) the search completes
    normally with the candidate reached at the cap, as a plain value like
    any other result. *)
Theorem search_terminates_within_cap (fuel : nat) (stat : Stat.t)
    (v : DerivedValue.t) (realValue : Decimal) :
  (cap < fuel)%nat →
  let start := Stat.currentValue stat in
  let ldir := DerivedValue.lesserBreakpointDirection v in
  let gdir := DerivedValue.greaterBreakpointDirection v in
  (∃ c : Completion Decimal,
     Stat.lesser_search fuel stat v realValue = Done c ∧
     (∀ bp, c = Normal bp → ∃ k : nat, (k ≤ cap)%nat ∧ bp = candidate start ldir k) ∧
     (∀ e, c = Throw e →
        ∃ k : nat, (k ≤ cap)%nat ∧ Stat.recalc stat v (candidate start ldir k) = Throw e) ∧
     ((∀ j : nat, (j ≤ cap)%nat →
         ∃ x, Stat.recalc stat v (candidate start ldir j) = Normal x
              ∧ Dec.ge x realValue = true) →
      c = Normal (candidate start ldir cap)))
  ∧
  (∃ c : Completion Decimal,
     Stat.greater_search fuel stat v realValue = Done c ∧
     (∀ bp, c = Normal bp → ∃ k : nat, (k ≤ cap)%nat ∧ bp = candidate start gdir k) ∧
     (∀ e, c = Throw e →
        ∃ k : nat, (k ≤ cap)%nat ∧ Stat.recalc stat v (candidate start gdir k) = Throw e) ∧
     ((∀ j : nat, (j ≤ cap)%nat →
         ∃ x, Stat.recalc stat v (candidate start gdir j) = Normal x
              ∧ Dec.le x realValue = true) →
      c = Normal (candidate start gdir cap))).
Proof.
  intros Hfuel start ldir gdir. split.
  - rewrite lesser_search_bounded by done. eexists. split; [done|].
    split; [|split].
    + intros bp Hbp. apply bounded_search_normal in Hbp as (k & ? & ? & _). eauto.
    + intros e He. apply bounded_search_throw in He as (k & Hk & He).
      exists k. split; [done|]. unfold lesser_test in He.
      destruct (Stat.recalc stat v _) as [x|e']; [discriminate|].
      by injection He as ->.
    + intros Hall. apply bounded_search_capped.
      intros j Hj. apply lesser_test_is. by apply Hall.
  - rewrite greater_search_bounded by done. eexists. split; [done|].
    split; [|split].
    + intros bp Hbp. apply bounded_search_normal in Hbp as (k & ? & ? & _). eauto.
    + intros e He. apply bounded_search_throw in He as (k & Hk & He).
      exists k. split; [done|]. unfold greater_test in He.
      destruct (Stat.recalc stat v _) as [x|e']; [discriminate|].
      by injection He as ->.
    + intros Hall. apply bounded_search_capped.
      intros j Hj. apply greater_test_is. by apply Hall.
Qed.

(** ** What the returned breakpoints bracket *)


(** ** The first step of a search *)

Lemma cap_positive : (1 ≤ cap)%nat.
Proof. unfold cap. lia. Qed.

Lemma candidate_moves (start : Decimal) (dir : Z) (k : nat) :
  (1 ≤ k)%nat → dir = 1%Z ∨ dir = (-1)%Z → candidate start dir k ≠ start.
Proof.
  intros Hk Hdir Heq. unfold candidate in Heq.
  rewrite <- (Qcplus_0_r start) in Heq at 2.
  apply (inj (Qcplus start)) in Heq.
  unfold Dec.of_Z in Heq. rewrite <- Z2Qc_inj_0 in Heq.
  apply Z2Qc_inj in Heq. lia.
Qed.

Lemma direction_unit (v : DerivedValue.t) :
  (DerivedValue.lesserBreakpointDirection v = 1%Z
   ∨ DerivedValue.lesserBreakpointDirection v = (-1)%Z)
  ∧ (DerivedValue.greaterBreakpointDirection v = 1%Z
     ∨ DerivedValue.greaterBreakpointDirection v = (-1)%Z).
Proof.
  unfold DerivedValue.lesserBreakpointDirection,
    DerivedValue.greaterBreakpointDirection.
  destruct (DerivedValue.invertedBreakpoints v); auto.
Qed.

(** Every spec of the catalog that carries breakpoints has a calcFn of the
    two arguments [s] and [extra] only. *)
Lemma catalog_breakpoint_specs_ignore_intermediates :
  Forall (λ stat,
    Forall (λ d, DerivedValue.hasBreakpoints d = JsBool true →
                 ignores_intermediates (DerivedValue.calcFn d))
      (Stat.derivedValueDefns stat))
    StatList.stats.
Proof.
  repeat constructor; solve [discriminate | intros _ s extra inter; reflexivity].
Qed.

(** C10: when the calcFn of a breakpoint-bearing spec does not read the
    intermediates and the current value is at or above the base, the value
    recomputed at the starting candidate is [realValue], so both loops run
    their body at least once: each returned breakpoint lies between 1 and
    10,000 steps from the current value in its direction and differs from
    it.  Every breakpoint-bearing spec of the catalog has such a calcFn. *)
Theorem breakpoints_leave_current_value (stat : Stat.t) (rows : list Entry.t)
    (i : nat) (v : DerivedValue.t) (row : Entry.t) :
  Stat.derivedValues stat = Done (Normal rows) →
  Stat.derivedValueDefns stat !! i = Some v →
  rows !! i = Some row →
  DerivedValue.hasBreakpoints v = JsBool true →
  Stat.statBase stat ≤ Stat.currentValue stat →
  ignores_intermediates (DerivedValue.calcFn v) →
  let start := Stat.currentValue stat in
  let ldir := DerivedValue.lesserBreakpointDirection v in
  let gdir := DerivedValue.greaterBreakpointDirection v in
  Stat.recalc stat v start = Normal (Entry.value row)
  ∧ (∃ (lesser greater : Decimal) (kl kg : nat),
       Entry.lesserBreakpoint row = Some lesser ∧
       Entry.greaterBreakpoint row = Some greater ∧
       (1 ≤ kl ≤ cap)%nat ∧ lesser = candidate start ldir kl ∧ lesser ≠ start ∧
       (1 ≤ kg ≤ cap)%nat ∧ greater = candidate start gdir kg ∧ greater ≠ start)
  ∧ Forall (λ stat,
      Forall (λ d, DerivedValue.hasBreakpoints d = JsBool true →
                   ignores_intermediates (DerivedValue.calcFn d))
        (Stat.derivedValueDefns stat))
      StatList.stats.
Proof.
  intros Hrun Hv Hrow Hhas Habove Hign start ldir gdir.
  destruct (derivedValues_rows _ _ _ Hrun) as [_ Hidx].
  destruct (Hidx _ _ _ Hv Hrow) as [Hcalc Hfor].
  assert (Stat.recalc stat v start = Normal (Entry.value row)) as Hstart.
  { unfold Stat.recalc. rewrite Hign in Hcalc. exact Hcalc. }
  split; [done|]. split; [|apply catalog_breakpoint_specs_ignore_intermediates].
  destruct (row_for_breakpoints _ _ _ _ _ Hhas Habove Hfor)
    as (lesser & greater & Hl & Hg & Heq).
  assert (cap < Stat.search_fuel)%nat as Hfuel by (unfold cap, Stat.search_fuel; lia).
  apply lesser_search_normal in Hl as (kl & Hkl & Hlc & _ & xl & Hxl & Hlast_l);
    [|done].
  apply greater_search_normal in Hg as (kg & Hkg & Hgc & _ & xg & Hxg & Hlast_g);
    [|done].
  pose proof cap_positive as Hcap.
  destruct (direction_unit v) as [Hld Hgd].
  assert (1 ≤ kl)%nat as Hkl1.
  { destruct kl; [|lia]. exfalso.
    rewrite Hlc, candidate_0 in Hxl. fold start in Hxl.
    rewrite Hstart in Hxl. injection Hxl as <-.
    destruct Hlast_l as [Hlt|[Hk _]]; [|lia].
    by rewrite ge_refl in Hlt. }
  assert (1 ≤ kg)%nat as Hkg1.
  { destruct kg; [|lia]. exfalso.
    rewrite Hgc, candidate_0 in Hxg. fold start in Hxg.
    rewrite Hstart in Hxg. injection Hxg as <-.
    destruct Hlast_g as [Hlt|[Hk _]]; [|lia].
    by rewrite le_refl in Hlt. }
  exists lesser, greater, kl, kg. rewrite Heq at 1 2. simpl.
  repeat split; try done; try lia.
  - rewrite Hlc. by apply candidate_moves.
  - rewrite Hgc. by apply candidate_moves.
Qed.

(** ** The order of evaluation and the intermediates *)

Lemma recorded_on_other (m : Intermediates) (specs : list DerivedValue.t)
    (results : list Decimal) (key : string) :
  (∀ k spec', specs !! k = Some spec' → DerivedValue.name spec' ≠ key) →
  recorded_on m specs results !! key = m !! key.
Proof.
  revert m results. induction specs as [|s specs IH]; intros m results Hother.
  - done.
  - destruct results as [|r results]; [done|].
    rewrite recorded_on_cons, IH.
    + apply lookup_insert_ne. by apply (Hother 0%nat).
    + intros k spec' Hk. by apply (Hother (S k)).
Qed.

(** A name holds the result of the last spec recorded under it. *)
Lemma recorded_on_lookup (m : Intermediates) (specs : list DerivedValue.t)
    (results : list Decimal) (j : nat) (spec : DerivedValue.t)
    (result : Decimal) :
  specs !! j = Some spec → results !! j = Some result →
  (∀ k spec', (j < k)%nat → specs !! k = Some spec' →
     DerivedValue.name spec' ≠ DerivedValue.name spec) →
  recorded_on m specs results !! DerivedValue.name spec = Some result.
Proof.
  revert m results j.
  induction specs as [|s specs IH]; intros m results j Hs Hr Hlater.
  - done.
  - destruct results as [|r results]; [done|].
    rewrite recorded_on_cons. destruct j as [|j]; simpl in *.
    + injection Hs as ->. injection Hr as ->.
      rewrite recorded_on_other; [apply lookup_insert_eq|].
      intros k spec' Hk. apply (Hlater (S k)); [lia|done].
    + apply (IH _ _ j); [done..|].
      intros k spec' Hjk Hk. apply (Hlater (S k)); [lia|done].
Qed.

Lemma Critical_Hit_at_base :
  Stat.derivedValues StatList.Critical_Hit = Done (Normal Critical_Hit_rows).
Proof. compute_done. Qed.

(** C3: the rows come in the order of the specs; the value of row [i] is
    the result of the calcFn of spec [i] on the current value, the extra
    value and the mapping in which the results of the specs before [i] were
    recorded, in order, under their names; after spec [i] its name holds its
    result, and a name holds the result of an earlier spec as long as no
    spec in between has the same name.  For Critical Hit (base 380, rate
    200) at 380 the extra value is 0 and the values are 0.05, 0.4 and
    1.02. *)
Theorem specs_evaluated_in_declared_order (stat : Stat.t) (rows : list Entry.t) :
  Stat.derivedValues stat = Done (Normal rows) →
  let value := Stat.currentValue stat in
  let specs := Stat.derivedValueDefns stat in
  let results := Entry.value <$> rows in
  length rows = length specs
  ∧ (∀ (i : nat) (spec : DerivedValue.t) (row : Entry.t),
       specs !! i = Some spec → rows !! i = Some row →
       DerivedValue.calcFn spec value (Stat.extra stat value)
         (Some (recorded (take i specs) (take i results)))
       = Normal (Entry.value row)
       ∧ Entry.name row = DerivedValue.displayName spec
       ∧ recorded (take (S i) specs) (take (S i) results)
           !! DerivedValue.name spec = Some (Entry.value row))
  ∧ (∀ (i j : nat) (spec : DerivedValue.t) (result : Decimal),
       (j < i)%nat → specs !! j = Some spec → results !! j = Some result →
       (∀ k spec', (j < k < i)%nat → specs !! k = Some spec' →
          DerivedValue.name spec' ≠ DerivedValue.name spec) →
       recorded (take i specs) (take i results) !! DerivedValue.name spec
       = Some result)
  ∧ Stat.extra StatList.Critical_Hit (Stat.currentValue StatList.Critical_Hit)
    = Dec.of_Z 0
  ∧ Stat.derivedValues StatList.Critical_Hit = Done (Normal Critical_Hit_rows)
  ∧ Entry.value <$> Critical_Hit_rows = [Q2Qc 0.05; Q2Qc 0.4; Q2Qc 1.02]
  ∧ Q2Qc 1.02 = Dec.of_Z 1 + Q2Qc 0.05 * Q2Qc 0.4.
Proof.
  intros Hrun value specs results.
  destruct (derivedValues_rows _ _ _ Hrun) as [Hlen Hidx].
  assert (∀ (i j : nat) (spec : DerivedValue.t) (result : Decimal),
       (j < i)%nat → specs !! j = Some spec → results !! j = Some result →
       (∀ k spec', (j < k < i)%nat → specs !! k = Some spec' →
          DerivedValue.name spec' ≠ DerivedValue.name spec) →
       recorded (take i specs) (take i results) !! DerivedValue.name spec
       = Some result) as Hlookup.
  { intros i j spec result Hji Hs Hr Hbetween.
    apply (recorded_on_lookup _ _ _ j).
    - by rewrite lookup_take_lt.
    - by rewrite lookup_take_lt.
    - intros k spec' Hjk Hk. apply lookup_take_Some in Hk as [Hk Hki].
      apply (Hbetween k); [lia|done]. }
  split; [done|]. split; [|split; [done|]].
  - intros i spec row Hs Hr. destruct (Hidx _ _ _ Hs Hr) as [Hcalc Hfor].
    split; [done|]. split.
    + unfold row_for in Hfor. destruct (ToBoolean _).
      * apply run_bind_normal in Hfor as (l & _ & Hfor).
        apply run_bind_normal in Hfor as (g & _ & Hfor).
        apply Done_inj in Hfor. by injection Hfor as <-.
      * apply Done_inj in Hfor. by injection Hfor as <-.
    + apply (Hlookup (S i) i); [lia|done| |intros; lia].
      subst results. by rewrite list_lookup_fmap, Hr.
  - split; [apply Qc_is_canon; reflexivity|].
    split; [apply Critical_Hit_at_base|].
    split; [done|]. apply Qc_is_canon. reflexivity.
Qed.

(** ** Below the base value *)

Lemma evaluate_length (v extra : Decimal) (specs : list DerivedValue.t)
    (m : Intermediates) (results : list Decimal) :
  evaluate v extra specs m = Normal results → length results = length specs.
Proof.
  revert m results. induction specs as [|s specs IH]; intros m results; simpl.
  - by intros [= <-].
  - intros Hev. apply completion_bind_normal in Hev as (r & _ & Hev).
    apply completion_bind_normal in Hev as (m' & _ & Hev).
    apply completion_bind_normal in Hev as (rs & Hrs & [= <-]).
    simpl. f_equal. by apply (IH _ _ Hrs).
Qed.

(** Below the base the callback of [map] only evaluates, whatever the
    fuel. *)
Lemma array_map_below_base (fuel : nat) (stat : Stat.t)
    (defns : list DerivedValue.t) (m : Intermediates) :
  Stat.currentValue stat < Stat.statBase stat →
  (r ← array_map (Stat.derivedValues_fn fuel stat) defns m; Done (Normal r.1))
  = Done (zip_with plain_row defns
            <$> evaluate (Stat.currentValue stat)
                  (Stat.extra stat (Stat.currentValue stat)) defns m).
Proof.
  intros Hbelow. revert m. induction defns as [|d defns IH]; intros m; simpl.
  - done.
  - rewrite derivedValues_fn_row.
    destruct (DerivedValue.calcFn d _ _ _) as [realValue|e]; simpl; [|done].
    destruct (JsArray.set m _ realValue) as [m'|e]; simpl; [|done].
    rewrite row_for_plain by auto. simpl.
    specialize (IH m').
    destruct (array_map _ defns _) as [[[bs m2]|e]|]; simpl in *;
      destruct (evaluate _ _ defns _) as [results|e']; simpl in *;
      try discriminate; apply Done_inj in IH; by simplify_eq.
Qed.

Lemma plain_rows_fields (defns : list DerivedValue.t) (results : list Decimal)
    (row : Entry.t) :
  row ∈ zip_with plain_row defns results →
  Entry.hasBreakpoints row = JsBool false
  ∧ Entry.lesserBreakpoint row = None ∧ Entry.greaterBreakpoint row = None.
Proof.
  intros Hin. apply elem_of_zip_with in Hin as (d & r & -> & _ & _). done.
Qed.

(** C6: when the current value is strictly below the base, [derivedValues]
    is the plain evaluation of section 4.2 of the spec: one row per spec,
    carrying the result of the spec, [hasBreakpoints: false] and no
    breakpoint field.  This holds with any fuel, even none, so no search
    loop is entered.  At the base value itself the extra value is 0. *)
Theorem below_base_rows_are_plain (fuel : nat) (stat : Stat.t) :
  Stat.currentValue stat < Stat.statBase stat →
  let value := Stat.currentValue stat in
  let specs := Stat.derivedValueDefns stat in
  Stat.derivedValues_with fuel stat
  = Done (zip_with plain_row specs
            <$> evaluate value (Stat.extra stat value) specs ∅)
  ∧ Stat.derivedValues_with 0 stat = Stat.derivedValues stat
  ∧ (∀ rows : list Entry.t,
       Stat.derivedValues_with fuel stat = Done (Normal rows) →
       length rows = length specs ∧
       ∀ row, row ∈ rows →
         Entry.hasBreakpoints row = JsBool false
         ∧ Entry.lesserBreakpoint row = None ∧ Entry.greaterBreakpoint row = None)
  ∧ Stat.extra stat (Stat.statBase stat) = Dec.of_Z 0.
Proof.
  intros Hbelow value specs.
  assert (∀ fuel', Stat.derivedValues_with fuel' stat
                   = Done (zip_with plain_row specs
                             <$> evaluate value (Stat.extra stat value) specs ∅))
    as Hplain by (intros fuel'; by apply array_map_below_base).
  split; [apply Hplain|]. split.
  { unfold Stat.derivedValues. by rewrite !Hplain. }
  split; [|apply extra_at_base].
  intros rows. rewrite Hplain. intros Hrows%Done_inj.
  destruct (evaluate value _ specs ∅) as [results|e] eqn:Hev; [|discriminate].
  injection Hrows as <-. split.
  - rewrite length_zip_with. apply evaluate_length in Hev. lia.
  - intros row. apply plain_rows_fields.
Qed.

(** ** The hasBreakpoints field of the rows *)

Lemma row_for_flag (fuel : nat) (stat : Stat.t) (v : DerivedValue.t)
    (realValue : Decimal) (row : Entry.t) :
  row_for fuel stat v realValue = Done (Normal row) →
  Entry.hasBreakpoints row
  = JsBool (ToBoolean (DerivedValue.hasBreakpoints v)
            && bool_decide (Stat.statBase stat ≤ Stat.currentValue stat)).
Proof.
  unfold row_for, Dec.greaterThanOrEqualTo.
  destruct (hasBreakpoints_cases v) as [-> | ->]; simpl.
  - destruct (bool_decide _).
    + intros Hrow. apply run_bind_normal in Hrow as (l & _ & Hrow).
      apply run_bind_normal in Hrow as (g & _ & Hrow).
      apply Done_inj in Hrow. by injection Hrow as <-.
    + intros Hrow%Done_inj. by injection Hrow as <-.
  - intros Hrow%Done_inj. by injection Hrow as <-.
Qed.

(** C9: in every row that [derivedValues] returns, the [hasBreakpoints]
    field is the boolean [true] or the boolean [false]: it is [true] exactly
    when the getter of the spec is truthy and the current value is at or
    above the base.  The getter of a NoBreakpointDerivedValue returns
    [undefined], which never reaches a row. *)
Theorem hasBreakpoints_field_is_boolean (fuel : nat) (stat : Stat.t)
    (rows : list Entry.t) :
  Stat.derivedValues_with fuel stat = Done (Normal rows) →
  (∀ row, row ∈ rows →
     Entry.hasBreakpoints row = JsBool true ∨ Entry.hasBreakpoints row = JsBool false)
  ∧ (∀ (i : nat) (v : DerivedValue.t) (row : Entry.t),
       Stat.derivedValueDefns stat !! i = Some v → rows !! i = Some row →
       Entry.hasBreakpoints row
       = JsBool (ToBoolean (DerivedValue.hasBreakpoints v)
                 && bool_decide (Stat.statBase stat ≤ Stat.currentValue stat)))
  ∧ (∀ (name displayName : string) (calcFn : CalcFn),
       DerivedValue.hasBreakpoints
         (NoBreakpointDerivedValue name displayName calcFn) = JsUndefined).
Proof.
  intros Hrun. destruct (derivedValues_rows _ _ _ Hrun) as [Hlen Hidx].
  assert (∀ (i : nat) (v : DerivedValue.t) (row : Entry.t),
       Stat.derivedValueDefns stat !! i = Some v → rows !! i = Some row →
       Entry.hasBreakpoints row
       = JsBool (ToBoolean (DerivedValue.hasBreakpoints v)
                 && bool_decide (Stat.statBase stat ≤ Stat.currentValue stat)))
    as Hflag.
  { intros i v row Hv Hrow. destruct (Hidx _ _ _ Hv Hrow) as [_ Hfor].
    by apply row_for_flag in Hfor. }
  split; [|split; [done|done]].
  intros row Hin. apply list_elem_of_lookup in Hin as [i Hrow].
  destruct (lookup_lt_is_Some_2 (Stat.derivedValueDefns stat) i) as [v Hv].
  { rewrite <- Hlen. by apply lookup_lt_Some in Hrow. }
  rewrite (Hflag _ _ _ Hv Hrow). destruct (_ && _); auto.
Qed.

(** ** The comparison of the loops at a change of length

    The loops compare the recomputed value with [realValue] by the
    operators [>=] and [<=] of the language, which see two objects and
    compare their texts, while the test [aboveMinimum] a few lines above
    compares two Decimals with [greaterThanOrEqualTo]. *)

(** C1, at a failing input.  Piety at 560 has the value 10.  The value at
    559 is 9, which is less, yet its text ["9"] is not smaller than ["10"],
    so the lesser search goes on, past 559 to 384, where the values are 9
    down to 2, and stops at 383, where the value is 1: the candidate one
    step back from the returned lesser breakpoint, 384, has the value 2,
    which is not [>= realValue].  Likewise Piety at 538 has the value 9, the
    value 10 at 560 is greater, yet ["10"] is smaller than ["9"]: the greater
    search stops at 2320, where the value is 90, and one step back, at 2319,
    the value is 89, which is not [<= realValue]. *)
Theorem Piety_breakpoints_follow_the_text_order :
  (Stat.statBase Piety_at_560 ≤ Stat.currentValue Piety_at_560
   ∧ DerivedValue.hasBreakpoints StatList.Additional_MP = JsBool true
   ∧ Stat.derivedValues Piety_at_560 = Done (Normal [Piety_row_at_560])
   ∧ Entry.value Piety_row_at_560 = Dec.of_Z 10
   ∧ Entry.lesserBreakpoint Piety_row_at_560 = Some (Dec.of_Z 383)
   ∧ Stat.recalc Piety_at_560 StatList.Additional_MP (Dec.of_Z 384)
     = Normal (Dec.of_Z 2)
   ∧ Stat.recalc Piety_at_560 StatList.Additional_MP (Dec.of_Z 559)
     = Normal (Dec.of_Z 9)
   ∧ ¬ Dec.of_Z 10 ≤ Dec.of_Z 2
   ∧ Dec.valueOf (Dec.of_Z 9) = "9" ∧ Dec.valueOf (Dec.of_Z 10) = "10"
   ∧ Dec.ge (Dec.of_Z 9) (Dec.of_Z 10) = true)
  ∧
  (Stat.statBase Piety_at_538 ≤ Stat.currentValue Piety_at_538
   ∧ Stat.derivedValues Piety_at_538 = Done (Normal [Piety_row_at_538])
   ∧ Entry.value Piety_row_at_538 = Dec.of_Z 9
   ∧ Entry.greaterBreakpoint Piety_row_at_538 = Some (Dec.of_Z 2320)
   ∧ Stat.recalc Piety_at_538 StatList.Additional_MP (Dec.of_Z 2319)
     = Normal (Dec.of_Z 89)
   ∧ Stat.recalc Piety_at_538 StatList.Additional_MP (Dec.of_Z 560)
     = Normal (Dec.of_Z 10)
   ∧ ¬ Dec.of_Z 89 ≤ Dec.of_Z 9
   ∧ Dec.le (Dec.of_Z 10) (Dec.of_Z 9) = true).
Proof.
  split.
  - split; [compute_done|]. split; [reflexivity|]. split; [compute_done|].
    split; [reflexivity|]. split; [reflexivity|]. split; [compute_done|].
    split; [compute_done|]. split; [compute_done|].
    split; [reflexivity|]. split; [reflexivity|]. reflexivity.
  - split; [compute_done|]. split; [compute_done|].
    split; [reflexivity|]. split; [reflexivity|]. split; [compute_done|].
    split; [compute_done|]. split; [compute_done|]. reflexivity.
Qed.

(** ** The theorems at concrete inputs *)


Lemma breakpoints_leave_current_value_witness :
  let stat := StatList.Critical_Hit in
  let v := StatList.Crit_Rate in
  let row := Crit_Rate_row in
  Stat.recalc stat v (Dec.of_Z 380) = Normal (Entry.value row) ∧
  ∃ (lesser greater : Decimal) (kl kg : nat),
    Entry.lesserBreakpoint row = Some lesser ∧
    Entry.greaterBreakpoint row = Some greater ∧
    (1 ≤ kl ≤ cap)%nat ∧ lesser = candidate (Dec.of_Z 380) (-1) kl ∧
    lesser ≠ Dec.of_Z 380 ∧
    (1 ≤ kg ≤ cap)%nat ∧ greater = candidate (Dec.of_Z 380) 1 kg ∧
    greater ≠ Dec.of_Z 380.
Proof.
  destruct (breakpoints_leave_current_value StatList.Critical_Hit
              Critical_Hit_rows 0 StatList.Crit_Rate Crit_Rate_row
              ltac:(compute_done) ltac:(reflexivity) ltac:(reflexivity)
              ltac:(reflexivity) ltac:(compute_done)
              ltac:(intros s extra inter; reflexivity))
    as (Hstart & Hmoves & _).
  split; [exact Hstart | exact Hmoves].
Defined.

Lemma search_terminates_within_cap_witness :
  (cap < Stat.search_fuel)%nat ∧
  Stat.lesser_search Stat.search_fuel constant_stat constant_spec (Q2Qc 0.25)
  = Done (Normal (candidate (Dec.of_Z 380) (-1) cap)) ∧
  Stat.greater_search Stat.search_fuel constant_stat constant_spec (Q2Qc 0.25)
  = Done (Normal (candidate (Dec.of_Z 380) 1 cap)).
Proof.
  assert (cap < Stat.search_fuel)%nat as Hfuel
    by (unfold cap, Stat.search_fuel; lia).
  split; [exact Hfuel|].
  destruct (search_terminates_within_cap Stat.search_fuel constant_stat
              constant_spec (Q2Qc 0.25) Hfuel)
    as [(cl & Hl & _ & _ & Hlcap) (cg & Hg & _ & _ & Hgcap)].
  split.
  - rewrite Hl. f_equal. apply Hlcap. intros j _.
    exists (Q2Qc 0.25). split; [reflexivity|apply ge_refl].
  - rewrite Hg. f_equal. apply Hgcap. intros j _.
    exists (Q2Qc 0.25). split; [reflexivity|apply le_refl].
Defined.

Lemma specs_evaluated_in_declared_order_witness :
  length Critical_Hit_rows = length (Stat.derivedValueDefns StatList.Critical_Hit)
  ∧ ∀ (i : nat) (spec : DerivedValue.t) (row : Entry.t),
      Stat.derivedValueDefns StatList.Critical_Hit !! i = Some spec →
      Critical_Hit_rows !! i = Some row →
      DerivedValue.calcFn spec (Dec.of_Z 380) (Stat.extra StatList.Critical_Hit (Dec.of_Z 380))
        (Some (recorded (take i (Stat.derivedValueDefns StatList.Critical_Hit))
                 (take i (Entry.value <$> Critical_Hit_rows))))
      = Normal (Entry.value row)
      ∧ Entry.name row = DerivedValue.displayName spec
      ∧ recorded (take (S i) (Stat.derivedValueDefns StatList.Critical_Hit))
          (take (S i) (Entry.value <$> Critical_Hit_rows))
          !! DerivedValue.name spec = Some (Entry.value row).
Proof.
  destruct (specs_evaluated_in_declared_order StatList.Critical_Hit
              Critical_Hit_rows ltac:(compute_done))
    as (Hlen & Hrows & _).
  split; [exact Hlen | exact Hrows].
Defined.

Lemma below_base_rows_are_plain_witness :
  Stat.currentValue Piety_at_339 < Stat.statBase Piety_at_339
  ∧ Stat.derivedValues_with 0 Piety_at_339 = Stat.derivedValues Piety_at_339
  ∧ Stat.derivedValues Piety_at_339
    = Done (zip_with plain_row (Stat.derivedValueDefns Piety_at_339)
              <$> evaluate (Dec.of_Z 339) (Stat.extra Piety_at_339 (Dec.of_Z 339))
                    (Stat.derivedValueDefns Piety_at_339) ∅).
Proof.
  assert (Stat.currentValue Piety_at_339 < Stat.statBase Piety_at_339)
    as Hbelow by compute_done.
  split; [exact Hbelow|].
  destruct (below_base_rows_are_plain Stat.search_fuel Piety_at_339 Hbelow)
    as (Hplain & Hnone & _).
  split; [exact Hnone | exact Hplain].
Defined.

Lemma hasBreakpoints_field_is_boolean_witness :
  Stat.derivedValues_with Stat.search_fuel StatList.Critical_Hit
  = Done (Normal Critical_Hit_rows)
  ∧ (Entry.hasBreakpoints Crit_Rate_row = JsBool true
     ∨ Entry.hasBreakpoints Crit_Rate_row = JsBool false).
Proof.
  assert (Stat.derivedValues_with Stat.search_fuel StatList.Critical_Hit
          = Done (Normal Critical_Hit_rows)) as Hrun by compute_done.
  split; [exact Hrun|].
  destruct (hasBreakpoints_field_is_boolean Stat.search_fuel
              StatList.Critical_Hit Critical_Hit_rows Hrun)
    as (Hbool & _).
  apply Hbool. constructor.
Defined.

(** * Further properties of the code *)

(** ** Linear arithmetic on Decimals *)

Lemma Qc_eq_Qeq (x y : Decimal) : x = y ↔ (this x == this y)%Q.
Proof. split; [by intros ->|apply Qc_is_canon]. Qed.

(** Moves a goal over [Qc] with linear hypotheses to [Q] and solves it. *)
Ltac qc_lra :=
  unfold Stat.levelMod, Dec.of_Z in *;
  rewrite ?Qc_eq_Qeq in *;
  unfold Qcle, Qclt, Qcdiv, Qcminus, Qcplus, Qcmult, Qcopp, Qcinv, Q2Qc,
    Qc_of_Z in *;
  cbn [this] in *;
  rewrite ?Qred_correct in *;
  repeat match goal with
  | |- context [inject_Z (Zpos ?p)] =>
      change (inject_Z (Zpos p)) with (Zpos p # 1)%Q
  | |- context [inject_Z (Zneg ?p)] =>
      change (inject_Z (Zneg p)) with (Zneg p # 1)%Q
  | |- context [inject_Z Z0] => change (inject_Z Z0) with (0 # 1)%Q
  | H : context [inject_Z (Zpos ?p)] |- _ =>
      change (inject_Z (Zpos p)) with (Zpos p # 1)%Q in H
  | H : context [inject_Z (Zneg ?p)] |- _ =>
      change (inject_Z (Zneg p)) with (Zneg p # 1)%Q in H
  | H : context [inject_Z Z0] |- _ =>
      change (inject_Z Z0) with (0 # 1)%Q in H
  end;
  repeat match goal with
  | |- context [Qinv (Zpos ?p # 1)] =>
      change (Qinv (Zpos p # 1)) with (1 # p)%Q
  | H : context [Qinv (Zpos ?p # 1)] |- _ =>
      change (Qinv (Zpos p # 1)) with (1 # p)%Q in H
  end;
  lra.

Lemma floor_le_self (x : Decimal) : Dec.floor x ≤ x.
Proof. destruct (floor_bounds x) as (n & -> & ? & _). done. Qed.

Lemma floor_gt_pred (x : Decimal) : x < Dec.floor x + Dec.of_Z 1.
Proof.
  destruct (floor_bounds x) as (n & -> & _ & Hlt). by rewrite <- of_Z_add.
Qed.

Lemma floor_mono (x y : Decimal) : x ≤ y → Dec.floor x ≤ Dec.floor y.
Proof.
  intros Hxy. unfold Dec.floor.
  apply (proj1 (Z2Qc_inj_le _ _)). by apply Qfloor_resp_le.
Qed.

Lemma floor_ge_Z (n : Z) (y : Decimal) :
  Dec.of_Z n ≤ y → Dec.of_Z n ≤ Dec.floor y.
Proof. intros Hle. rewrite <- (floor_of_Z n). by apply floor_mono. Qed.


(** ** The extra value grows with the stat *)

Lemma scaled_delta_mono (stat : Stat.t) (v w : Decimal) :
  Dec.of_Z 0 ≤ Stat.deltaRate stat → v ≤ w →
  Stat.deltaRate stat * (v - Stat.statBase stat) / Stat.levelMod
  ≤ Stat.deltaRate stat * (w - Stat.statBase stat) / Stat.levelMod.
Proof.
  intros Hrate Hvw. unfold Qcdiv.
  apply Qcmult_le_mono_nonneg_r.
  - apply Qclt_le_weak, Qcinv_pos. done.
  - apply Qcmult_le_mono_nonneg_l; [qc_lra|]. qc_lra.
Qed.

(** X1: with a delta rate that is not negative, [extra] never decreases
    when the stat value grows. *)
Theorem extra_monotone (stat : Stat.t) (v w : Decimal) :
  Dec.of_Z 0 ≤ Stat.deltaRate stat → v ≤ w →
  Stat.extra stat v ≤ Stat.extra stat w.
Proof.
  intros Hrate Hvw. unfold Stat.extra. apply floor_mono.
  by apply scaled_delta_mono.
Qed.

Lemma extra_monotone_witness :
  Stat.extra StatList.Critical_Hit (Dec.of_Z 380)
  ≤ Stat.extra StatList.Critical_Hit (Dec.of_Z 400).
Proof.
  apply (extra_monotone StatList.Critical_Hit (Dec.of_Z 380) (Dec.of_Z 400));
    compute_done.
Defined.

Lemma scaled_delta_shift (stat : Stat.t) (v d : Decimal) :
  Stat.deltaRate stat * (v + d - Stat.statBase stat) / Stat.levelMod
  = Stat.deltaRate stat * (v - Stat.statBase stat) / Stat.levelMod
    + Stat.deltaRate stat * d / Stat.levelMod.
Proof. unfold Qcdiv. ring. Qed.

Lemma extra_step_bounds (stat : Stat.t) (v d : Decimal) (n : Z) :
  Dec.of_Z 3300 * Dec.of_Z n ≤ Stat.deltaRate stat * d →
  Stat.extra stat v + Dec.of_Z n ≤ Stat.extra stat (v + d)
  ∧ Stat.extra stat (v - d) + Dec.of_Z n ≤ Stat.extra stat v.
Proof.
  intros Hd.
  assert (Dec.of_Z n ≤ Stat.deltaRate stat * d / Stat.levelMod) as Hn.
  { unfold Qcdiv. apply (Qcmult_le_mono_pos_r _ _ Stat.levelMod); [done|].
    rewrite <- Qcmult_assoc, (Qcmult_inv_l Stat.levelMod) by done.
    rewrite Qcmult_1_r, (Qcmult_comm (Dec.of_Z n)). exact Hd. }
  assert (∀ x y : Decimal, x + Dec.of_Z n ≤ y →
            Dec.floor x + Dec.of_Z n ≤ Dec.floor y) as Hfloor.
  { intros x y Hxy. destruct (floor_bounds x) as (k & -> & Hle & _).
    rewrite <- of_Z_add. apply floor_ge_Z. rewrite of_Z_add. qc_lra. }
  split; unfold Stat.extra; apply Hfloor.
  - rewrite scaled_delta_shift. qc_lra.
  - replace v with (v - d + d) at 2 by ring.
    rewrite scaled_delta_shift. qc_lra.
Qed.

(** X2: a gain of [d] stat points with [deltaRate * d >= 3300 * n] raises
    [extra] by at least the whole number [n], and a loss of [d] points
    lowers it by at least [n]. *)
Theorem extra_steps (stat : Stat.t) (v d : Decimal) (n : Z) :
  Dec.of_Z 3300 * Dec.of_Z n ≤ Stat.deltaRate stat * d →
  Stat.extra stat v + Dec.of_Z n ≤ Stat.extra stat (v + d)
  ∧ Stat.extra stat (v - d) + Dec.of_Z n ≤ Stat.extra stat v.
Proof. apply extra_step_bounds. Qed.

Lemma extra_steps_witness :
  Stat.extra StatList.Defense (Dec.of_Z 0) + Dec.of_Z 1
  ≤ Stat.extra StatList.Defense (Dec.of_Z 0 + Dec.of_Z 220).
Proof.
  apply (extra_steps StatList.Defense (Dec.of_Z 0) (Dec.of_Z 220) 1).
  compute_done.
Defined.

(** ** derivedValues as a whole *)

Lemma run_bind_value {A B : Type} (a : A) (f : A → Run B) :
  Done (Normal a) ≫= f = f a.
Proof. reflexivity. Qed.

Lemma row_for_fuel (fuel : nat) (stat : Stat.t) (v : DerivedValue.t)
    (realValue : Decimal) :
  (cap < fuel)%nat →
  row_for fuel stat v realValue = row_for Stat.search_fuel stat v realValue.
Proof.
  intros Hfuel. unfold row_for.
  assert (cap < Stat.search_fuel)%nat by (unfold cap, Stat.search_fuel; lia).
  by rewrite !lesser_search_bounded, !greater_search_bounded.
Qed.

Lemma array_map_ext {A B St : Type} (fn fn' : A → St → Run (B * St))
    (l : list A) (st : St) :
  (∀ a st, fn a st = fn' a st) → array_map fn l st = array_map fn' l st.
Proof.
  intros Hext. revert st. induction l as [|a l IH]; intros st; simpl; [done|].
  rewrite Hext. destruct (fn' a st) as [[[b st1]|e]|]; simpl; [|done..].
  by rewrite IH.
Qed.

Lemma array_map_done {A B St : Type} (fn : A → St → Run (B * St))
    (l : list A) (st : St) :
  (∀ a st, ∃ c, fn a st = Done c) → ∃ c, array_map fn l st = Done c.
Proof.
  intros Hdone. revert st. induction l as [|a l IH]; intros st; simpl; [eauto|].
  destruct (Hdone a st) as [[[b st1]|e] ->]; simpl; [|eauto].
  destruct (IH st1) as [[[bs st2]|e] ->]; simpl; eauto.
Qed.

Lemma derivedValues_fn_done (stat : Stat.t) (v : DerivedValue.t)
    (m : Intermediates) :
  ∃ c, Stat.derivedValues_fn Stat.search_fuel stat v m = Done c.
Proof.
  rewrite derivedValues_fn_row.
  destruct (DerivedValue.calcFn v _ _ _) as [realValue|e]; simpl; [|eauto].
  destruct (JsArray.set m _ realValue) as [m'|e]; simpl; [|eauto].
  unfold row_for.
  assert (cap < Stat.search_fuel)%nat by (unfold cap, Stat.search_fuel; lia).
  rewrite lesser_search_bounded, greater_search_bounded by done.
  generalize (bounded_search (lesser_test stat v realValue)
                (DerivedValue.lesserBreakpointDirection v) cap
                (Stat.currentValue stat)).
  generalize (bounded_search (greater_test stat v realValue)
                (DerivedValue.greaterBreakpointDirection v) cap
                (Stat.currentValue stat)).
  intros [g|e] [l|e']; destruct (ToBoolean _); simpl; eauto.
Qed.

Lemma derivedValues_completes (stat : Stat.t) :
  ∃ c : Completion (list Entry.t), Stat.derivedValues stat = Done c.
Proof.
  unfold Stat.derivedValues, Stat.derivedValues_with.
  destruct (array_map_done (Stat.derivedValues_fn Stat.search_fuel stat)
              (Stat.derivedValueDefns stat) ∅ (derivedValues_fn_done stat))
    as [[[rows m]|e] ->]; simpl; eauto.
Qed.

(** X6: [derivedValues] ends for every stat, whatever its specs compute:
    with the fuel of the model it completes (normally or with an
    exception), and any larger fuel gives the same completion. *)
Theorem derivedValues_terminates (stat : Stat.t) :
  (∃ c : Completion (list Entry.t), Stat.derivedValues stat = Done c)
  ∧ ∀ fuel : nat, (cap < fuel)%nat →
      Stat.derivedValues_with fuel stat = Stat.derivedValues stat.
Proof.
  split; [apply derivedValues_completes|].
  - intros fuel Hfuel. unfold Stat.derivedValues, Stat.derivedValues_with.
    f_equal. apply array_map_ext. intros v m.
    rewrite !derivedValues_fn_row.
    destruct (DerivedValue.calcFn v _ _ _) as [realValue|e]; [|done].
    rewrite !run_bind_value.
    destruct (JsArray.set m _ realValue) as [m'|e]; [|done].
    rewrite !run_bind_value. by rewrite (row_for_fuel fuel).
Qed.

Lemma array_map_values (fuel : nat) (stat : Stat.t)
    (defns : list DerivedValue.t) (m m' : Intermediates) (rows : list Entry.t) :
  array_map (Stat.derivedValues_fn fuel stat) defns m = Done (Normal (rows, m')) →
  evaluate (Stat.currentValue stat) (Stat.extra stat (Stat.currentValue stat))
    defns m = Normal (Entry.value <$> rows).
Proof.
  revert m rows. induction defns as [|d defns IH]; intros m rows; simpl.
  - intros Hrun%Done_inj. by injection Hrun as <- <-.
  - rewrite derivedValues_fn_row.
    intros Hrun. apply run_bind_normal in Hrun as ([row0 m1] & Hfn & Hrest).
    apply run_bind_normal in Hfn as (realValue & Hcalc%Done_inj & Hfn).
    apply run_bind_normal in Hfn as (m1' & Hset%Done_inj & Hfn).
    apply run_bind_normal in Hfn as (row0' & Hrow & Heq%Done_inj).
    injection Heq as -> ->.
    apply run_bind_normal in Hrest as ([rows' m2] & Hrest & Heq%Done_inj).
    injection Heq as <- <-.
    rewrite Hcalc. simpl. rewrite Hset. simpl.
    rewrite (IH _ _ Hrest). simpl. do 2 f_equal.
    unfold row_for in Hrow. destruct (ToBoolean _).
    + apply run_bind_normal in Hrow as (l & _ & Hrow).
      apply run_bind_normal in Hrow as (g & _ & Hrow%Done_inj).
      by injection Hrow as <-.
    + apply Done_inj in Hrow. by injection Hrow as <-.
Qed.

(** X7: at every current value, below or above the base, the values of the
    rows that [derivedValues] returns are the results of evaluating the
    specs in order with the intermediates; the breakpoint searches never
    change a value. *)
Theorem derivedValues_values_are_evaluation (fuel : nat) (stat : Stat.t)
    (rows : list Entry.t) :
  Stat.derivedValues_with fuel stat = Done (Normal rows) →
  evaluate (Stat.currentValue stat) (Stat.extra stat (Stat.currentValue stat))
    (Stat.derivedValueDefns stat) ∅
  = Normal (Entry.value <$> rows).
Proof.
  unfold Stat.derivedValues_with. intros Hrun.
  apply run_bind_normal in Hrun as ([rows' m'] & Hmap & Heq%Done_inj).
  injection Heq as <-. by apply array_map_values in Hmap.
Qed.

Lemma derivedValues_values_are_evaluation_witness :
  evaluate (Dec.of_Z 380) (Stat.extra StatList.Critical_Hit (Dec.of_Z 380))
    (Stat.derivedValueDefns StatList.Critical_Hit) ∅
  = Normal (Entry.value <$> Critical_Hit_rows).
Proof.
  apply (derivedValues_values_are_evaluation Stat.search_fuel
           StatList.Critical_Hit Critical_Hit_rows).
  compute_done.
Defined.

Lemma bounded_search_total (test : Decimal → Completion bool) (dir : Z)
    (n : nat) (c : Decimal) :
  (∀ c, ∃ b, test c = Normal b) →
  ∃ r, bounded_search test dir n c = Normal r.
Proof.
  intros Htotal. revert c. induction n as [|n IH]; intros c; simpl;
    destruct (Htotal c) as [[|] ->]; eauto.
Qed.

Lemma row_for_succeeds (stat : Stat.t) (v : DerivedValue.t)
    (realValue : Decimal) :
  (ToBoolean (DerivedValue.hasBreakpoints v) = true →
   ∀ c, ∃ x, Stat.recalc stat v c = Normal x) →
  ∃ row, row_for Stat.search_fuel stat v realValue = Done (Normal row)
         ∧ Entry.value row = realValue.
Proof.
  intros Htotal. unfold row_for.
  assert (cap < Stat.search_fuel)%nat by (unfold cap, Stat.search_fuel; lia).
  destruct (ToBoolean (js_and _ _)) eqn:Hcond.
  - assert (ToBoolean (DerivedValue.hasBreakpoints v) = true) as Hhas.
    { destruct (hasBreakpoints_cases v) as [Hh|Hh]; rewrite Hh in *;
        [done|discriminate]. }
    specialize (Htotal Hhas).
    destruct (bounded_search_total (lesser_test stat v realValue)
                (DerivedValue.lesserBreakpointDirection v) cap
                (Stat.currentValue stat)) as [l Hl].
    { intros c. unfold lesser_test. destruct (Htotal c) as [x ->].
      eexists. reflexivity. }
    destruct (bounded_search_total (greater_test stat v realValue)
                (DerivedValue.greaterBreakpointDirection v) cap
                (Stat.currentValue stat)) as [g Hg].
    { intros c. unfold greater_test. destruct (Htotal c) as [x ->].
      eexists. reflexivity. }
    rewrite lesser_search_bounded, greater_search_bounded, Hl, Hg by done.
    rewrite !run_bind_value. eexists. split; reflexivity.
  - eexists. split; reflexivity.
Qed.

Lemma array_map_succeeds (stat : Stat.t) (defns : list DerivedValue.t)
    (m : Intermediates) (results : list Decimal) :
  evaluate (Stat.currentValue stat) (Stat.extra stat (Stat.currentValue stat))
    defns m = Normal results →
  Forall (λ v, ToBoolean (DerivedValue.hasBreakpoints v) = true →
               ∀ c, ∃ x, Stat.recalc stat v c = Normal x) defns →
  ∃ rows m',
    array_map (Stat.derivedValues_fn Stat.search_fuel stat) defns m
    = Done (Normal (rows, m'))
    ∧ Entry.value <$> rows = results.
Proof.
  revert m results. induction defns as [|d defns IH]; intros m results; simpl.
  - intros [= <-] _. by exists [], m.
  - intros Hev Hall. inversion Hall as [|? ? Hd Hall']; subst.
    clear Hall. rename Hall' into Hall.
    apply completion_bind_normal in Hev as (r & Hr & Hev).
    apply completion_bind_normal in Hev as (m1 & Hset & Hev).
    apply completion_bind_normal in Hev as (rs & Hrs & [= <-]).
    rewrite derivedValues_fn_row, Hr, run_bind_value, Hset, run_bind_value.
    destruct (row_for_succeeds stat d r Hd) as (row & -> & Hval).
    rewrite !run_bind_value.
    destruct (IH _ _ Hrs Hall) as (rows & m' & -> & Hvals).
    rewrite run_bind_value. exists (row :: rows), m'.
    split; [done|]. rewrite fmap_cons. by f_equal.
Qed.

Lemma succeeds_when_evaluation_does (stat : Stat.t) (results : list Decimal) :
  evaluate (Stat.currentValue stat) (Stat.extra stat (Stat.currentValue stat))
    (Stat.derivedValueDefns stat) ∅ = Normal results →
  Forall (λ v, ToBoolean (DerivedValue.hasBreakpoints v) = true →
               ∀ c, ∃ x, Stat.recalc stat v c = Normal x)
    (Stat.derivedValueDefns stat) →
  ∃ rows, Stat.derivedValues stat = Done (Normal rows)
          ∧ Entry.value <$> rows = results
          ∧ length rows = length (Stat.derivedValueDefns stat).
Proof.
  intros Hev Hall.
  destruct (array_map_succeeds _ _ _ _ Hev Hall) as (rows & m' & Hmap & Hvals).
  exists rows. unfold Stat.derivedValues, Stat.derivedValues_with.
  rewrite Hmap, run_bind_value. split; [done|]. split; [done|].
  apply evaluate_length in Hev. rewrite <- Hev, <- Hvals.
  by rewrite length_fmap.
Qed.

(** X8: [derivedValues] completes normally, with one row per spec,
    whenever the evaluation of the specs in order succeeds (no calcFn raises
    on the intermediates recorded so far and no assignment of a result to
    the array [intermediates] does) and every spec with breakpoints can be
    recomputed without intermediates at any stat value. *)
Theorem derivedValues_succeeds (stat : Stat.t) (results : list Decimal) :
  evaluate (Stat.currentValue stat) (Stat.extra stat (Stat.currentValue stat))
    (Stat.derivedValueDefns stat) ∅ = Normal results →
  Forall (λ v, ToBoolean (DerivedValue.hasBreakpoints v) = true →
               ∀ c, ∃ x, Stat.recalc stat v c = Normal x)
    (Stat.derivedValueDefns stat) →
  ∃ rows, Stat.derivedValues stat = Done (Normal rows)
          ∧ Entry.value <$> rows = results
          ∧ length rows = length (Stat.derivedValueDefns stat).
Proof. apply succeeds_when_evaluation_does. Qed.

Lemma derivedValues_succeeds_witness :
  ∃ rows, Stat.derivedValues StatList.Critical_Hit = Done (Normal rows)
          ∧ Entry.value <$> rows = Entry.value <$> Critical_Hit_rows
          ∧ length rows = length (Stat.derivedValueDefns StatList.Critical_Hit).
Proof.
  apply (derivedValues_succeeds StatList.Critical_Hit
           (Entry.value <$> Critical_Hit_rows)).
  - compute_done.
  - repeat constructor;
      solve [discriminate | intros _ c; eexists; reflexivity].
Defined.

Lemma array_map_throws (stat : Stat.t) (defns : list DerivedValue.t)
    (m : Intermediates) (e : JsError) :
  array_map (Stat.derivedValues_fn Stat.search_fuel stat) defns m
  = Done (Throw e) →
  evaluate (Stat.currentValue stat) (Stat.extra stat (Stat.currentValue stat))
    defns m = Throw e
  ∨ ∃ v c, v ∈ defns ∧ Stat.recalc stat v c = Throw e.
Proof.
  assert (cap < Stat.search_fuel)%nat as Hfuel
    by (unfold cap, Stat.search_fuel; lia).
  revert m. induction defns as [|d defns IH]; intros m; simpl; [discriminate|].
  rewrite derivedValues_fn_row.
  destruct (DerivedValue.calcFn d _ _ _) as [realValue|e0] eqn:Hcalc.
  2:{ intros Hthrow%Done_inj. injection Hthrow as ->. by left. }
  rewrite run_bind_value.
  destruct (JsArray.set m _ realValue) as [m1|e0] eqn:Hset.
  2:{ intros Hthrow%Done_inj. injection Hthrow as ->.
      left. simpl. by rewrite Hset. }
  rewrite run_bind_value.
  destruct (row_for Stat.search_fuel stat d realValue) as [[row|e0]|] eqn:Hrow.
  - rewrite !run_bind_value.
    destruct (array_map _ defns _) as [[[rows m2]|e0]|] eqn:Hrest;
      [discriminate| |discriminate].
    intros Hthrow%Done_inj. injection Hthrow as ->.
    destruct (IH _ Hrest) as [Hev|(v & c & Hin & Hre)].
    + left. simpl. rewrite Hset. simpl. by rewrite Hev.
    + right. exists v, c. split; [by apply list_elem_of_further|done].
  - intros Hthrow%Done_inj. injection Hthrow as ->. right.
    unfold row_for in Hrow. destruct (ToBoolean _); [|discriminate].
    rewrite lesser_search_bounded, greater_search_bounded in Hrow by done.
    destruct (bounded_search (lesser_test _ _ _) _ _ _) as [l|e1] eqn:Hl.
    + rewrite run_bind_value in Hrow.
      destruct (bounded_search (greater_test _ _ _) _ _ _) as [g|e1] eqn:Hg;
        [discriminate|].
      apply Done_inj in Hrow. injection Hrow as ->.
      apply bounded_search_throw in Hg as (k & _ & Hg).
      unfold greater_test in Hg.
      destruct (Stat.recalc stat d _) as [x|e1] eqn:Hre; [discriminate|].
      injection Hg as ->. eexists d, _.
      split; [by apply list_elem_of_here|exact Hre].
    + apply Done_inj in Hrow. injection Hrow as ->.
      apply bounded_search_throw in Hl as (k & _ & Hl).
      unfold lesser_test in Hl.
      destruct (Stat.recalc stat d _) as [x|e1] eqn:Hre; [discriminate|].
      injection Hl as ->. eexists d, _.
      split; [by apply list_elem_of_here|exact Hre].
  - discriminate.
Qed.

Lemma evaluate_throws (value extra : Decimal) (defns : list DerivedValue.t)
    (m : Intermediates) (e : JsError) :
  evaluate value extra defns m = Throw e →
  (∃ v inter, v ∈ defns ∧ DerivedValue.calcFn v value extra (Some inter) = Throw e)
  ∨ (e = RangeError ∧
     ∃ v inter x, v ∈ defns ∧ DerivedValue.name v = "length" ∧
       DerivedValue.calcFn v value extra (Some inter) = Normal x ∧
       Double.uint32_of (Dec.text_value x) = None).
Proof.
  revert m. induction defns as [|d defns IH]; intros m; simpl; [discriminate|].
  destruct (DerivedValue.calcFn d _ _ _) as [x|e0] eqn:Hcalc; simpl.
  2:{ intros [= ->]. left. exists d, m. split; [apply list_elem_of_here|done]. }
  destruct (JsArray.set m _ x) as [m1|e0] eqn:Hset; simpl.
  2:{ intros [= ->]. apply array_set_throw in Hset as (-> & Hname & Hlen).
      right. split; [done|]. exists d, m, x.
      split; [apply list_elem_of_here|done]. }
  destruct (evaluate _ _ defns m1) as [rs|e0] eqn:Hrest; simpl; [discriminate|].
  intros [= ->].
  destruct (IH _ Hrest) as [(v & inter & Hin & Hv)|(-> & v & inter & y & Hin & Hv)].
  - left. exists v, inter. split; [by apply list_elem_of_further|done].
  - right. split; [done|]. exists v, inter, y.
    split; [by apply list_elem_of_further|done].
Qed.

(** X9: an exception that [derivedValues] ends with has one of three
    sources: the calcFn of a spec raised it when it was evaluated with the
    intermediates; or the calcFn of a spec raised it when a search
    recomputed it without them; or it is the RangeError of the assignment
    [intermediates[v.name] = realValue] for a spec named [length] whose
    value is not read as a whole number below 2^32. *)
Theorem derivedValues_exceptions_have_three_sources (stat : Stat.t)
    (e : JsError) :
  Stat.derivedValues stat = Done (Throw e) →
  let value := Stat.currentValue stat in
  (∃ v inter, v ∈ Stat.derivedValueDefns stat ∧
     DerivedValue.calcFn v value (Stat.extra stat value) (Some inter) = Throw e)
  ∨ (∃ v c, v ∈ Stat.derivedValueDefns stat ∧ Stat.recalc stat v c = Throw e)
  ∨ (e = RangeError ∧
     ∃ v inter x, v ∈ Stat.derivedValueDefns stat ∧
       DerivedValue.name v = "length" ∧
       DerivedValue.calcFn v value (Stat.extra stat value) (Some inter)
       = Normal x ∧
       Double.uint32_of (Dec.text_value x) = None).
Proof.
  intros Hrun value. unfold Stat.derivedValues, Stat.derivedValues_with in Hrun.
  destruct (array_map _ _ _) as [[[rows m']|e0]|] eqn:Hmap; try discriminate.
  apply Done_inj in Hrun. injection Hrun as ->.
  apply array_map_throws in Hmap as [Hev|Hsearch]; [|auto].
  apply evaluate_throws in Hev as [Hcalc|Hlen]; auto.
Qed.

Lemma derivedValues_exceptions_have_three_sources_witness :
  let stat := Crit_Rate_named_length in
  (∃ v inter, v ∈ Stat.derivedValueDefns stat ∧
     DerivedValue.calcFn v (Dec.of_Z 380) (Stat.extra stat (Dec.of_Z 380))
       (Some inter) = Throw RangeError)
  ∨ (∃ v c, v ∈ Stat.derivedValueDefns stat
            ∧ Stat.recalc stat v c = Throw RangeError)
  ∨ (RangeError = RangeError ∧
     ∃ v inter x, v ∈ Stat.derivedValueDefns stat ∧
       DerivedValue.name v = "length" ∧
       DerivedValue.calcFn v (Dec.of_Z 380) (Stat.extra stat (Dec.of_Z 380))
         (Some inter) = Normal x ∧
       Double.uint32_of (Dec.text_value x) = None).
Proof.
  apply (derivedValues_exceptions_have_three_sources Crit_Rate_named_length
           RangeError).
  compute_done.
Defined.

(** ** isPercent has no effect on the computation *)

Lemma derivedValues_fn_isntPercent (fuel : nat) (stat : Stat.t)
    (d : DerivedValue.t) (m : Intermediates) :
  Stat.derivedValues_fn fuel stat (DerivedValue.isntPercent d) m
  = match Stat.derivedValues_fn fuel stat d m with
    | Done (Normal (row, m')) => Done (Normal (not_percent row, m'))
    | other => other
    end.
Proof.
  rewrite !derivedValues_fn_row.
  change (DerivedValue.calcFn (DerivedValue.isntPercent d))
    with (DerivedValue.calcFn d).
  destruct (DerivedValue.calcFn d _ _ _) as [realValue|e]; [|done].
  rewrite !run_bind_value.
  change (DerivedValue.name (DerivedValue.isntPercent d))
    with (DerivedValue.name d).
  destruct (JsArray.set m _ realValue) as [m1|e]; [|done].
  rewrite !run_bind_value. unfold row_for.
  change (DerivedValue.hasBreakpoints (DerivedValue.isntPercent d))
    with (DerivedValue.hasBreakpoints d).
  change (Stat.lesser_search fuel stat (DerivedValue.isntPercent d) realValue)
    with (Stat.lesser_search fuel stat d realValue).
  change (Stat.greater_search fuel stat (DerivedValue.isntPercent d) realValue)
    with (Stat.greater_search fuel stat d realValue).
  destruct (ToBoolean _); [|done].
  destruct (Stat.lesser_search fuel stat d realValue) as [[l|e]|]; [|done..].
  rewrite !run_bind_value.
  by destruct (Stat.greater_search fuel stat d realValue) as [[g|e]|].
Qed.

Lemma array_map_marked (fuel : nat) (stat : Stat.t) (marks : list bool)
    (defns : list DerivedValue.t) (m : Intermediates) :
  length marks = length defns →
  array_map (Stat.derivedValues_fn fuel stat) (mark_specs marks defns) m
  = match array_map (Stat.derivedValues_fn fuel stat) defns m with
    | Done (Normal (rows, m')) => Done (Normal (mark_rows marks rows, m'))
    | other => other
    end.
Proof.
  revert marks m. induction defns as [|d defns IH]; intros [|b marks] m Hlen;
    try discriminate; [done|].
  injection Hlen as Hlen. unfold mark_specs, mark_rows in *. simpl.
  assert (Stat.derivedValues_fn fuel stat
            (if b then DerivedValue.isntPercent d else d) m
          = match Stat.derivedValues_fn fuel stat d m with
            | Done (Normal (row, m')) =>
                Done (Normal (if b then not_percent row else row, m'))
            | other => other
            end) as ->.
  { destruct b; [apply derivedValues_fn_isntPercent|].
    by destruct (Stat.derivedValues_fn fuel stat d m) as [[[row m']|e]|]. }
  destruct (Stat.derivedValues_fn fuel stat d m) as [[[row m1]|e]|];
    [|done..].
  rewrite !run_bind_value, (IH marks m1 Hlen).
  by destruct (array_map _ defns m1) as [[[rows m2]|e]|].
Qed.

(** X10: calling [isntPercent] on some of the specs of a stat changes
    nothing but the [isPercent] field of their rows: the values, the
    breakpoints and the exceptions are the same. *)
Theorem isntPercent_changes_only_the_flag (fuel : nat) (stat : Stat.t)
    (marks : list bool) :
  length marks = length (Stat.derivedValueDefns stat) →
  Stat.derivedValues_with fuel
    (with_defns (mark_specs marks (Stat.derivedValueDefns stat)) stat)
  = mark_rows marks <$> Stat.derivedValues_with fuel stat.
Proof.
  intros Hlen. unfold Stat.derivedValues_with.
  change (Stat.derivedValueDefns (with_defns ?l stat)) with l.
  change (Stat.derivedValues_fn fuel (with_defns ?l stat))
    with (Stat.derivedValues_fn fuel stat).
  rewrite array_map_marked by done.
  by destruct (array_map _ _ _) as [[[rows m']|e]|].
Qed.

Lemma isntPercent_changes_only_the_flag_witness :
  Stat.derivedValues_with Stat.search_fuel
    (with_defns
       (mark_specs [true; false; true]
          (Stat.derivedValueDefns StatList.Critical_Hit))
       StatList.Critical_Hit)
  = mark_rows [true; false; true]
      <$> Stat.derivedValues_with Stat.search_fuel StatList.Critical_Hit.
Proof.
  apply (isntPercent_changes_only_the_flag Stat.search_fuel
           StatList.Critical_Hit [true; false; true]).
  reflexivity.
Defined.

(** ** Rows and what the view does with them *)

Lemma row_for_shape (fuel : nat) (stat : Stat.t) (v : DerivedValue.t)
    (realValue : Decimal) (row : Entry.t) :
  row_for fuel stat v realValue = Done (Normal row) →
  row = plain_row v realValue
  ∨ ∃ lesser greater : Decimal,
      Stat.lesser_search fuel stat v realValue = Done (Normal lesser) ∧
      Stat.greater_search fuel stat v realValue = Done (Normal greater) ∧
      row = Entry.mk (DerivedValue.displayName v) realValue (JsBool true)
              (DerivedValue.isPercent v) (Some lesser) (Some greater).
Proof.
  unfold row_for. destruct (ToBoolean _).
  - intros Hrow. right.
    apply run_bind_normal in Hrow as (l & Hl & Hrow).
    apply run_bind_normal in Hrow as (g & Hg & Hrow%Done_inj).
    injection Hrow as <-. eauto.
  - intros Hrow%Done_inj. injection Hrow as <-. by left.
Qed.

Lemma rows_shape (fuel : nat) (stat : Stat.t) (rows : list Entry.t)
    (row : Entry.t) :
  Stat.derivedValues_with fuel stat = Done (Normal rows) → row ∈ rows →
  ∃ v, v ∈ Stat.derivedValueDefns stat ∧
       row_for fuel stat v (Entry.value row) = Done (Normal row).
Proof.
  intros Hrun Hin. destruct (derivedValues_rows _ _ _ Hrun) as [Hlen Hidx].
  apply list_elem_of_lookup in Hin as [i Hrow].
  destruct (lookup_lt_is_Some_2 (Stat.derivedValueDefns stat) i) as [v Hv].
  { rewrite <- Hlen. by apply lookup_lt_Some in Hrow. }
  exists v. split; [by apply list_elem_of_lookup_2 in Hv|].
  by destruct (Hidx _ _ _ Hv Hrow).
Qed.

(** X11: in every row that [derivedValues] returns, the two breakpoint
    fields are present exactly when [hasBreakpoints] is [true]; so the view,
    which calls [minus] on both fields of a row with [hasBreakpoints], never
    raises on a row of [derivedValues], and formats differences exactly for
    the rows with breakpoints. *)
Theorem view_reads_only_present_breakpoints (toString : Decimal → string)
    (fuel : nat) (stat : Stat.t) (rows : list Entry.t) (row : Entry.t) :
  Stat.derivedValues_with fuel stat = Done (Normal rows) → row ∈ rows →
  (Entry.hasBreakpoints row = JsBool true
   ∧ (∃ lesser greater,
        Entry.lesserBreakpoint row = Some lesser ∧
        Entry.greaterBreakpoint row = Some greater ∧
        View.breakpoint_texts toString stat row
        = Normal (Some
            ((toString lesser,
              View.formatDecimal toString (lesser - Stat.currentValue stat)),
             (toString greater,
              View.formatDecimal toString (greater - Stat.currentValue stat))))))
  ∨ (Entry.hasBreakpoints row = JsBool false
     ∧ Entry.lesserBreakpoint row = None
     ∧ Entry.greaterBreakpoint row = None
     ∧ View.breakpoint_texts toString stat row = Normal None).
Proof.
  intros Hrun Hin. destruct (rows_shape _ _ _ _ Hrun Hin) as (v & _ & Hfor).
  apply row_for_shape in Hfor as [->|(l & g & _ & _ & ->)].
  - right. done.
  - left. split; [done|]. exists l, g. done.
Qed.

Lemma view_reads_only_present_breakpoints_witness :
  (Entry.hasBreakpoints Crit_Rate_row = JsBool true
   ∧ (∃ lesser greater,
        Entry.lesserBreakpoint Crit_Rate_row = Some lesser ∧
        Entry.greaterBreakpoint Crit_Rate_row = Some greater ∧
        View.breakpoint_texts (λ _, "") StatList.Critical_Hit Crit_Rate_row
        = Normal (Some
            (("", View.formatDecimal (λ _, "")
                    (lesser - Stat.currentValue StatList.Critical_Hit)),
             ("", View.formatDecimal (λ _, "")
                    (greater - Stat.currentValue StatList.Critical_Hit))))))
  ∨ (Entry.hasBreakpoints Crit_Rate_row = JsBool false
     ∧ Entry.lesserBreakpoint Crit_Rate_row = None
     ∧ Entry.greaterBreakpoint Crit_Rate_row = None
     ∧ View.breakpoint_texts (λ _, "") StatList.Critical_Hit Crit_Rate_row
       = Normal None).
Proof.
  apply (view_reads_only_present_breakpoints (λ _, "") Stat.search_fuel
           StatList.Critical_Hit Critical_Hit_rows Crit_Rate_row).
  - compute_done.
  - constructor.
Defined.

Lemma candidate_integer (start : Decimal) (dir : Z) (k : nat) :
  is_integer start → is_integer (candidate start dir k).
Proof.
  intros [n ->]. exists (n + Z.of_nat k * dir)%Z. unfold candidate.
  by rewrite of_Z_add.
Qed.

Lemma candidate_distance (start : Decimal) (dir : Z) (k : nat) :
  (k ≤ cap)%nat → dir = 1%Z ∨ dir = (-1)%Z →
  start - Dec.of_Z 10000 ≤ candidate start dir k
  ∧ candidate start dir k ≤ start + Dec.of_Z 10000.
Proof.
  intros Hk Hdir. unfold candidate.
  assert (-10000 ≤ Z.of_nat k * dir ≤ 10000)%Z as [Hlo Hhi]
    by (unfold cap in Hk; lia).
  apply Z2Qc_inj_le in Hlo, Hhi. qc_lra.
Qed.

(** X12: every breakpoint that [derivedValues] returns lies within 10,000
    of the current value, and it is a whole number when the current value
    is one. *)
Theorem breakpoints_near_and_integer (stat : Stat.t) (rows : list Entry.t)
    (row : Entry.t) (bp : Decimal) :
  Stat.derivedValues stat = Done (Normal rows) → row ∈ rows →
  Entry.lesserBreakpoint row = Some bp ∨ Entry.greaterBreakpoint row = Some bp →
  Stat.currentValue stat - Dec.of_Z 10000 ≤ bp
  ∧ bp ≤ Stat.currentValue stat + Dec.of_Z 10000
  ∧ (is_integer (Stat.currentValue stat) → is_integer bp).
Proof.
  intros Hrun Hin Hbp.
  assert (cap < Stat.search_fuel)%nat as Hfuel
    by (unfold cap, Stat.search_fuel; lia).
  destruct (rows_shape _ _ _ _ Hrun Hin) as (v & _ & Hfor).
  destruct (direction_unit v) as [Hld Hgd].
  apply row_for_shape in Hfor as [Hplain|(l & g & Hl & Hg & Hrow)].
  { rewrite Hplain in Hbp. by destruct Hbp. }
  apply lesser_search_normal in Hl as (kl & Hkl & Hlc & _); [|done].
  apply greater_search_normal in Hg as (kg & Hkg & Hgc & _); [|done].
  assert (bp = l ∨ bp = g) as [-> | ->].
  { rewrite Hrow in Hbp. simpl in Hbp. destruct Hbp as [[= ->]|[= ->]]; auto. }
  - rewrite Hlc. destruct (candidate_distance (Stat.currentValue stat) _ kl Hkl Hld).
    repeat split; try done. by apply candidate_integer.
  - rewrite Hgc. destruct (candidate_distance (Stat.currentValue stat) _ kg Hkg Hgd).
    repeat split; try done. by apply candidate_integer.
Qed.

Lemma breakpoints_near_and_integer_witness :
  Stat.currentValue StatList.Critical_Hit - Dec.of_Z 10000 ≤ Dec.of_Z 379
  ∧ Dec.of_Z 379 ≤ Stat.currentValue StatList.Critical_Hit + Dec.of_Z 10000
  ∧ (is_integer (Stat.currentValue StatList.Critical_Hit)
     → is_integer (Dec.of_Z 379)).
Proof.
  apply (breakpoints_near_and_integer StatList.Critical_Hit Critical_Hit_rows
           Crit_Rate_row (Dec.of_Z 379)).
  - compute_done.
  - constructor.
  - left. reflexivity.
Defined.

(** ** The signs that the view shows *)

Lemma candidate_down (start : Decimal) (k : nat) :
  candidate start (-1) k = start - Dec.of_Z (Z.of_nat k).
Proof.
  unfold candidate. replace (Z.of_nat k * -1)%Z with (- Z.of_nat k)%Z by lia.
  unfold Dec.of_Z. rewrite Z2Qc_inj_opp. ring.
Qed.

Lemma candidate_up (start : Decimal) (k : nat) :
  candidate start 1 k = start + Dec.of_Z (Z.of_nat k).
Proof. unfold candidate. by rewrite Z.mul_1_r. Qed.

Lemma of_Z_nat_pos (k : nat) : (1 ≤ k)%nat → Dec.of_Z 1 ≤ Dec.of_Z (Z.of_nat k).
Proof. intros Hk. apply (proj1 (Z2Qc_inj_le _ _)). lia. Qed.

(** The offsets of the two breakpoints of a spec whose value at the current
    value is recomputed to [realValue]. *)
Lemma searches_move (stat : Stat.t) (v : DerivedValue.t)
    (realValue lesser greater : Decimal) :
  Stat.recalc stat v (Stat.currentValue stat) = Normal realValue →
  Stat.lesser_search Stat.search_fuel stat v realValue = Done (Normal lesser) →
  Stat.greater_search Stat.search_fuel stat v realValue = Done (Normal greater) →
  ∃ kl kg : nat,
    (1 ≤ kl ≤ cap)%nat ∧ (1 ≤ kg ≤ cap)%nat ∧
    lesser = candidate (Stat.currentValue stat)
               (DerivedValue.lesserBreakpointDirection v) kl ∧
    greater = candidate (Stat.currentValue stat)
                (DerivedValue.greaterBreakpointDirection v) kg.
Proof.
  intros Hstart Hl Hg.
  assert (cap < Stat.search_fuel)%nat as Hfuel
    by (unfold cap, Stat.search_fuel; lia).
  pose proof cap_positive as Hcap.
  apply lesser_search_normal in Hl as (kl & Hkl & Hlc & _ & xl & Hxl & Hlast_l);
    [|done].
  apply greater_search_normal in Hg as (kg & Hkg & Hgc & _ & xg & Hxg & Hlast_g);
    [|done].
  exists kl, kg. repeat split; try done.
  - destruct kl; [|lia]. exfalso.
    rewrite Hlc, candidate_0, Hstart in Hxl. injection Hxl as <-.
    destruct Hlast_l as [Hlt|[Hk _]]; [|lia]. by rewrite ge_refl in Hlt.
  - destruct kg; [|lia]. exfalso.
    rewrite Hgc, candidate_0, Hstart in Hxg. injection Hxg as <-.
    destruct Hlast_g as [Hlt|[Hk _]]; [|lia]. by rewrite le_refl in Hlt.
Qed.

Lemma formatDecimal_negative (toString : Decimal → string) (x : Decimal) :
  x < Dec.of_Z 0 → View.formatDecimal toString x = toString x.
Proof.
  intros Hx. unfold View.formatDecimal, Dec.greaterThanOrEqualTo.
  by rewrite bool_decide_eq_false_2 by (by apply Qclt_not_le).
Qed.

Lemma formatDecimal_not_negative (toString : Decimal → string) (x : Decimal) :
  Dec.of_Z 0 ≤ x → View.formatDecimal toString x = "+" ++ toString x.
Proof.
  intros Hx. unfold View.formatDecimal, Dec.greaterThanOrEqualTo.
  by rewrite bool_decide_eq_true_2.
Qed.

(** X13: for a spec with breakpoints whose calcFn does not read the
    intermediates, at or above the base: if the spec is not inverted the
    lesser breakpoint is below the current value and the greater one above
    it, and the view shows the first difference as the bare text of a
    negative number and the second with a leading [+]; if the spec is
    inverted it is the other way round, the "next lowest" difference getting
    the [+]. *)
Theorem view_shows_signed_differences (toString : Decimal → string)
    (stat : Stat.t) (rows : list Entry.t) (i : nat) (v : DerivedValue.t)
    (row : Entry.t) :
  Stat.derivedValues stat = Done (Normal rows) →
  Stat.derivedValueDefns stat !! i = Some v →
  rows !! i = Some row →
  DerivedValue.hasBreakpoints v = JsBool true →
  Stat.statBase stat ≤ Stat.currentValue stat →
  ignores_intermediates (DerivedValue.calcFn v) →
  ∃ lesser greater : Decimal,
    Entry.lesserBreakpoint row = Some lesser ∧
    Entry.greaterBreakpoint row = Some greater ∧
    if DerivedValue.invertedBreakpoints v
    then
      greater < Stat.currentValue stat ∧ Stat.currentValue stat < lesser ∧
      View.breakpoint_texts toString stat row
      = Normal (Some
          ((toString lesser,
            "+" ++ toString (lesser - Stat.currentValue stat)),
           (toString greater, toString (greater - Stat.currentValue stat))))
    else
      lesser < Stat.currentValue stat ∧ Stat.currentValue stat < greater ∧
      View.breakpoint_texts toString stat row
      = Normal (Some
          ((toString lesser, toString (lesser - Stat.currentValue stat)),
           (toString greater,
            "+" ++ toString (greater - Stat.currentValue stat)))).
Proof.
  intros Hrun Hv Hrow Hhas Habove Hign.
  destruct (derivedValues_rows _ _ _ Hrun) as [_ Hidx].
  destruct (Hidx _ _ _ Hv Hrow) as [Hcalc Hfor].
  assert (Stat.recalc stat v (Stat.currentValue stat)
          = Normal (Entry.value row)) as Hstart.
  { unfold Stat.recalc. rewrite Hign in Hcalc. exact Hcalc. }
  destruct (row_for_breakpoints _ _ _ _ _ Hhas Habove Hfor)
    as (lesser & greater & Hl & Hg & Heq).
  destruct (searches_move _ _ _ _ _ Hstart Hl Hg)
    as (kl & kg & [Hkl _] & [Hkg _] & Hlc & Hgc).
  apply of_Z_nat_pos in Hkl, Hkg.
  exists lesser, greater. rewrite Heq. split; [done|]. split; [done|].
  unfold View.breakpoint_texts, View.lowerDiff, View.upperDiff. simpl.
  unfold DerivedValue.lesserBreakpointDirection,
    DerivedValue.greaterBreakpointDirection in Hlc, Hgc.
  destruct (DerivedValue.invertedBreakpoints v).
  - rewrite candidate_up in Hlc. rewrite candidate_down in Hgc.
    split; [rewrite Hgc; qc_lra|]. split; [rewrite Hlc; qc_lra|].
    rewrite formatDecimal_not_negative by (rewrite Hlc; qc_lra).
    rewrite formatDecimal_negative by (rewrite Hgc; qc_lra). done.
  - rewrite candidate_down in Hlc. rewrite candidate_up in Hgc.
    split; [rewrite Hlc; qc_lra|]. split; [rewrite Hgc; qc_lra|].
    rewrite formatDecimal_negative by (rewrite Hlc; qc_lra).
    rewrite formatDecimal_not_negative by (rewrite Hgc; qc_lra). done.
Qed.

Lemma view_shows_signed_differences_witness :
  ∃ lesser greater : Decimal,
    Entry.lesserBreakpoint Tenacity_Mitigation_row = Some lesser ∧
    Entry.greaterBreakpoint Tenacity_Mitigation_row = Some greater ∧
    greater < Dec.of_Z 380 ∧ Dec.of_Z 380 < lesser ∧
    View.breakpoint_texts (λ _, "n") StatList.Tenacity Tenacity_Mitigation_row
    = Normal (Some (("n", "+n"), ("n", "n"))).
Proof.
  apply (view_shows_signed_differences (λ _, "n") StatList.Tenacity
           Tenacity_rows 1 Tenacity_Mitigation Tenacity_Mitigation_row).
  - compute_done.
  - reflexivity.
  - reflexivity.
  - reflexivity.
  - compute_done.
  - intros s extra inter. reflexivity.
Defined.

(** ** How far the value of a catalog spec stays the same *)

Lemma changes_within_increasing (stat : Stat.t) (v : DerivedValue.t)
    (g : Decimal → Decimal) (n : Z) (N : nat) :
  DerivedValue.invertedBreakpoints v = false →
  (∀ e e', e + Dec.of_Z n ≤ e' → g e < g e') →
  Dec.of_Z 3300 * Dec.of_Z n ≤ Stat.deltaRate stat * Dec.of_Z (Z.of_nat N) →
  changes_within stat v g N.
Proof.
  intros Hinv Hg Hrate c.
  unfold DerivedValue.lesserBreakpointDirection,
    DerivedValue.greaterBreakpointDirection. rewrite Hinv.
  rewrite candidate_down, candidate_up.
  destruct (extra_step_bounds stat c (Dec.of_Z (Z.of_nat N)) n Hrate)
    as [Hup Hdown].
  split; by apply Hg.
Qed.

Lemma changes_within_decreasing (stat : Stat.t) (v : DerivedValue.t)
    (g : Decimal → Decimal) (n : Z) (N : nat) :
  DerivedValue.invertedBreakpoints v = true →
  (∀ e e', e + Dec.of_Z n ≤ e' → g e' < g e) →
  Dec.of_Z 3300 * Dec.of_Z n ≤ Stat.deltaRate stat * Dec.of_Z (Z.of_nat N) →
  changes_within stat v g N.
Proof.
  intros Hinv Hg Hrate c.
  unfold DerivedValue.lesserBreakpointDirection,
    DerivedValue.greaterBreakpointDirection. rewrite Hinv.
  rewrite candidate_down, candidate_up.
  destruct (extra_step_bounds stat c (Dec.of_Z (Z.of_nat N)) n Hrate)
    as [Hup Hdown].
  split; by apply Hg.
Qed.

Lemma truncate_near (x : Decimal) :
  x - Dec.of_Z 1 < Dec.of_Z (Dec.truncate x)
  ∧ Dec.of_Z (Dec.truncate x) < x + Dec.of_Z 1.
Proof.
  destruct (truncate_bounds x) as [Hpos Hneg].
  destruct (Qclt_le_dec x (Dec.of_Z 0)) as [Hx|Hx].
  - destruct (Hneg Hx) as [Hlo Hhi].
    unfold Dec.of_Z in Hlo. rewrite Z2Qc_inj_sub in Hlo. split; qc_lra.
  - destruct (Hpos Hx) as [Hlo Hhi]. rewrite of_Z_add in Hhi. split; qc_lra.
Qed.

(** The value of a speed entry with a time constant of at least 1500 is
    lower whenever [extra] is higher by 14 or more. *)
Lemma speed_value_drops (timeConstant e e' : Decimal) :
  Dec.of_Z 1500 ≤ timeConstant → e + Dec.of_Z 14 ≤ e' →
  speed_value timeConstant e' < speed_value timeConstant e.
Proof.
  intros Htc He. unfold speed_value, Dec.toDecimalPlaces_ROUND_DOWN.
  change (Qc_of_Z (10 ^ Z.of_nat 2)) with (Dec.of_Z 100).
  set (A := (Dec.of_Z 1000 - e) * timeConstant / Dec.of_Z 1000).
  set (A' := (Dec.of_Z 1000 - e') * timeConstant / Dec.of_Z 1000).
  assert (A' + Dec.of_Z 21 ≤ A) as HA.
  { assert (Dec.of_Z 14 * timeConstant ≤ (e' - e) * timeConstant) as Hprod.
    { apply Qcmult_le_mono_nonneg_r; qc_lra. }
    subst A A'. qc_lra. }
  clearbody A A'.
  pose proof (floor_le_self A') as HF'.
  pose proof (floor_gt_pred A) as HF.
  generalize dependent (Dec.floor A'). generalize dependent (Dec.floor A).
  intros F HF F' HF'.
  destruct (truncate_near (F / Dec.of_Z 1000 * Dec.of_Z 100)) as [Hlo _].
  destruct (truncate_near (F' / Dec.of_Z 1000 * Dec.of_Z 100)) as [_ Hhi].
  unfold Dec.of_Z in *.
  generalize dependent (Qc_of_Z (Dec.truncate (F / Qc_of_Z 1000 * Qc_of_Z 100))).
  generalize dependent (Qc_of_Z (Dec.truncate (F' / Qc_of_Z 1000 * Qc_of_Z 100))).
  intros T' HT' T HT. clear Htc He. qc_lra.
Qed.

(** ** The shipped catalog *)

Ltac catalog_spec :=
  let e := fresh "e" in
  let e' := fresh "e'" in
  let He := fresh "He" in
  first
  [ discriminate
  | intros _; eexists; split; [intros ? ? ?; reflexivity|];
    first
    [ apply (changes_within_increasing _ _ _ 1);
      [reflexivity | intros e e' He; cbv beta; qc_lra | compute_done]
    | apply (changes_within_decreasing _ _ _ 1);
      [reflexivity | intros e e' He; cbv beta; qc_lra | compute_done]
    | apply (changes_within_decreasing _ _ _ 14);
      [reflexivity
      | intros e e' He; apply speed_value_drops; [compute_done | exact He]
      | compute_done] ] ].

(** Every spec of the catalog that carries breakpoints computes a function
    of [extra] that changes within 400 stat points in both directions. *)
Lemma catalog_specs_change_within_400 :
  Forall (λ stat,
    Forall (λ v, DerivedValue.hasBreakpoints v = JsBool true →
                 ∃ g, depends_on_extra v g ∧ changes_within stat v g 400)
      (Stat.derivedValueDefns stat))
    StatList.stats.
Proof. repeat constructor; catalog_spec. Qed.

Lemma catalog_spec_changes (stat : Stat.t) (i : nat) (v : DerivedValue.t) :
  stat ∈ StatList.stats →
  Stat.derivedValueDefns stat !! i = Some v →
  DerivedValue.hasBreakpoints v = JsBool true →
  ∃ g, depends_on_extra v g ∧ changes_within stat v g 400.
Proof.
  intros Hstat Hv Hhas. apply list_elem_of_lookup in Hstat as [k Hk].
  pose proof (Forall_lookup_1 _ _ _ _ catalog_specs_change_within_400 Hk)
    as Hspecs.
  by apply (Forall_lookup_1 _ _ _ _ Hspecs Hv).
Qed.

(** X15: in the catalog, the value of every spec with breakpoints,
    recomputed as the searches recompute it, changes within 400 stat points
    of any stat value [c]: 400 points from [c] in the lesser direction of
    the spec the value is strictly lower than at [c], and 400 points in the
    greater direction it is strictly higher. *)
Theorem catalog_values_change_within_400 (stat : Stat.t) (i : nat)
    (v : DerivedValue.t) (c : Decimal) :
  stat ∈ StatList.stats →
  Stat.derivedValueDefns stat !! i = Some v →
  DerivedValue.hasBreakpoints v = JsBool true →
  ∃ lower here higher : Decimal,
    Stat.recalc stat v
      (candidate c (DerivedValue.lesserBreakpointDirection v) 400)
    = Normal lower ∧
    Stat.recalc stat v c = Normal here ∧
    Stat.recalc stat v
      (candidate c (DerivedValue.greaterBreakpointDirection v) 400)
    = Normal higher ∧
    lower < here ∧ here < higher.
Proof.
  intros Hstat Hv Hhas.
  destruct (catalog_spec_changes stat i v Hstat Hv Hhas) as (g & Hdep & Hchange).
  destruct (Hchange c) as [Hlow Hhigh].
  eexists _, _, _. unfold Stat.recalc. rewrite !Hdep. done.
Qed.

Lemma catalog_values_change_within_400_witness :
  ∃ lower here higher : Decimal,
    Stat.recalc StatList.Tenacity Tenacity_Mitigation
      (candidate (Dec.of_Z 380) 1 400) = Normal lower ∧
    Stat.recalc StatList.Tenacity Tenacity_Mitigation (Dec.of_Z 380)
    = Normal here ∧
    Stat.recalc StatList.Tenacity Tenacity_Mitigation
      (candidate (Dec.of_Z 380) (-1) 400) = Normal higher ∧
    lower < here ∧ here < higher.
Proof.
  apply (catalog_values_change_within_400 StatList.Tenacity 1
           Tenacity_Mitigation (Dec.of_Z 380)).
  - apply list_elem_of_lookup. by exists 4%nat.
  - reflexivity.
  - reflexivity.
Defined.

Lemma edmg_reads_rate_and_bonus (s e rate bonus : Decimal) (m : Intermediates) :
  StatList.edmg s e (Some (<["bonus" := bonus]> (<["rate" := rate]> m)))
  = Normal (Dec.of_Z 1 + rate * bonus).
Proof.
  assert (<["bonus" := bonus]> (<["rate" := rate]> m) !! "rate" = Some rate)
    as Hrate by (rewrite lookup_insert_ne by discriminate; apply lookup_insert_eq).
  assert (<["bonus" := bonus]> (<["rate" := rate]> m) !! "bonus" = Some bonus)
    as Hbonus by apply lookup_insert_eq.
  unfold StatList.edmg, StatList.get. simpl. by rewrite Hrate, Hbonus.
Qed.

Lemma catalog_evaluates :
  Forall (λ stat, ∀ value extra : Decimal,
            ∃ results, evaluate value extra (Stat.derivedValueDefns stat) ∅
                       = Normal results)
    StatList.stats.
Proof.
  repeat constructor; intros value extra;
    first [ eexists; reflexivity
          | eexists; simpl; rewrite edmg_reads_rate_and_bonus; reflexivity ].
Qed.

(** X16: for every stat of the catalog and every current value, integer
    or not, below or above the base, [derivedValues] completes normally with
    one row per spec: no calcFn of the catalog raises, in the evaluation or
    in a search. *)
Theorem catalog_always_completes (stat : Stat.t) (value : Decimal) :
  stat ∈ StatList.stats →
  ∃ rows, Stat.derivedValues (Stat.set_currentValue value stat)
          = Done (Normal rows)
          ∧ length rows = length (Stat.derivedValueDefns stat).
Proof.
  intros Hstat. pose proof Hstat as Hin.
  apply list_elem_of_lookup in Hin as [k Hk].
  destruct (Forall_lookup_1 _ _ _ _ catalog_evaluates Hk value
              (Stat.extra stat value)) as [results Hev].
  destruct (succeeds_when_evaluation_does (Stat.set_currentValue value stat)
              results Hev) as (rows & Hrun & _ & Hlen).
  - apply Forall_lookup_2. intros i v Hv Htruthy c.
    assert (DerivedValue.hasBreakpoints v = JsBool true) as Hhas.
    { destruct (hasBreakpoints_cases v) as [Hh|Hh]; [done|].
      rewrite Hh in Htruthy. discriminate. }
    destruct (catalog_spec_changes stat i v Hstat Hv Hhas) as (g & Hdep & _).
    eexists. unfold Stat.recalc. apply Hdep.
  - exists rows. by split.
Qed.

Lemma catalog_always_completes_witness :
  ∃ rows, Stat.derivedValues
            (Stat.set_currentValue (Q2Qc 1234.5) StatList.Spell_Skill_Speed)
          = Done (Normal rows)
          ∧ length rows
            = length (Stat.derivedValueDefns StatList.Spell_Skill_Speed).
Proof.
  apply (catalog_always_completes StatList.Spell_Skill_Speed (Q2Qc 1234.5)).
  apply list_elem_of_lookup. by exists 3%nat.
Defined.

(** X17: in Critical Hit and in Direct Hit, at every current value, the
    third row (Expected Dmg) is 1 plus the product of the values of the
    first two rows (rate and bonus) of the same call, and it never carries
    breakpoints. *)
Theorem expected_damage_is_one_plus_rate_times_bonus (stat : Stat.t)
    (value : Decimal) (rows : list Entry.t) :
  stat = StatList.Critical_Hit ∨ stat = StatList.Direct_Hit →
  Stat.derivedValues (Stat.set_currentValue value stat) = Done (Normal rows) →
  ∃ rate bonus edmg : Entry.t,
    rows = [rate; bonus; edmg] ∧
    Entry.value edmg = Dec.of_Z 1 + Entry.value rate * Entry.value bonus ∧
    Entry.hasBreakpoints edmg = JsBool false ∧
    Entry.name edmg = "Expected Dmg".
Proof.
  intros Hstat Hrun.
  destruct (derivedValues_rows _ _ _ Hrun) as [Hlen Hidx].
  assert (length rows = 3%nat) as Hlen3 by (by destruct Hstat as [-> | ->]).
  destruct rows as [|rate [|bonus [|edmg [|? ?]]]]; try discriminate.
  exists rate, bonus, edmg. split; [done|].
  unfold Stat.derivedValues, Stat.derivedValues_with in Hrun.
  apply run_bind_normal in Hrun as ([rows' m'] & Hmap & Heq%Done_inj).
  injection Heq as ->. apply array_map_values in Hmap.
  destruct Hstat as [-> | ->].
  - destruct (Hidx 2%nat _ edmg eq_refl eq_refl) as [_ Hfor].
    apply row_for_shape in Hfor as [Hplain|(l & g & _ & _ & Hbp)].
    2:{ exfalso. clear -Hbp Hidx.
        destruct (Hidx 2%nat _ edmg eq_refl eq_refl) as [_ Hfor].
        apply row_for_flag in Hfor. rewrite Hbp in Hfor. discriminate. }
    split; [|by rewrite Hplain].
    simpl in Hmap. rewrite edmg_reads_rate_and_bonus in Hmap.
    by injection Hmap as -> -> ->.
  - destruct (Hidx 2%nat _ edmg eq_refl eq_refl) as [_ Hfor].
    apply row_for_shape in Hfor as [Hplain|(l & g & _ & _ & Hbp)].
    2:{ exfalso. clear -Hbp Hidx.
        destruct (Hidx 2%nat _ edmg eq_refl eq_refl) as [_ Hfor].
        apply row_for_flag in Hfor. rewrite Hbp in Hfor. discriminate. }
    split; [|by rewrite Hplain].
    simpl in Hmap. rewrite edmg_reads_rate_and_bonus in Hmap.
    by injection Hmap as -> -> ->.
Qed.

Lemma expected_damage_is_one_plus_rate_times_bonus_witness :
  ∃ rate bonus edmg : Entry.t,
    Critical_Hit_rows = [rate; bonus; edmg] ∧
    Entry.value edmg = Dec.of_Z 1 + Entry.value rate * Entry.value bonus ∧
    Entry.hasBreakpoints edmg = JsBool false ∧
    Entry.name edmg = "Expected Dmg".
Proof.
  apply (expected_damage_is_one_plus_rate_times_bonus StatList.Critical_Hit
           (Dec.of_Z 380) Critical_Hit_rows); [by left | compute_done].
Defined.

(** ** Speed entries *)

Lemma truncate_mono (x y : Decimal) : x ≤ y → (Dec.truncate x ≤ Dec.truncate y)%Z.
Proof.
  intros Hxy. unfold Dec.truncate.
  destruct (Qclt_le_dec x 0) as [Hx|Hx]; destruct (Qclt_le_dec y 0) as [Hy|Hy].
  - rewrite !bool_decide_eq_false_2 by (by apply Qclt_not_le).
    by apply Qceiling_resp_le.
  - rewrite (bool_decide_eq_false_2 (0 ≤ x)) by (by apply Qclt_not_le).
    rewrite (bool_decide_eq_true_2 (0 ≤ y)) by done.
    transitivity 0%Z.
    + assert (Qceiling x - 1 < 0)%Z; [|lia].
      rewrite Zlt_Qlt. eapply Qlt_trans; [apply Qceiling_lt|exact Hx].
    + change 0%Z with (Qfloor 0). by apply Qfloor_resp_le.
  - exfalso. apply (Qclt_not_le _ _ Hy). by transitivity x.
  - rewrite !bool_decide_eq_true_2 by done. by apply Qfloor_resp_le.
Qed.

Lemma speed_value_antitone (timeConstant e e' : Decimal) :
  0 ≤ timeConstant → e ≤ e' →
  speed_value timeConstant e' ≤ speed_value timeConstant e.
Proof.
  intros Htc He. unfold speed_value, Dec.toDecimalPlaces_ROUND_DOWN.
  change (Qc_of_Z (10 ^ Z.of_nat 2)) with (Dec.of_Z 100).
  set (A := (Dec.of_Z 1000 - e) * timeConstant / Dec.of_Z 1000).
  set (A' := (Dec.of_Z 1000 - e') * timeConstant / Dec.of_Z 1000).
  assert (A' ≤ A) as HA.
  { assert (Dec.of_Z 0 * timeConstant ≤ (e' - e) * timeConstant) as Hprod.
    { apply Qcmult_le_mono_nonneg_r; qc_lra. }
    subst A A'. qc_lra. }
  clearbody A A'. apply floor_mono in HA.
  generalize dependent (Dec.floor A'). generalize dependent (Dec.floor A).
  intros F F' HF.
  assert (F' / Dec.of_Z 1000 * Dec.of_Z 100 ≤ F / Dec.of_Z 1000 * Dec.of_Z 100)
    as HT by qc_lra.
  apply truncate_mono in HT. apply (proj1 (Z2Qc_inj_le _ _)) in HT.
  unfold Dec.of_Z in *.
  generalize dependent (Qc_of_Z (Dec.truncate (F / Qc_of_Z 1000 * Qc_of_Z 100))).
  generalize dependent (Qc_of_Z (Dec.truncate (F' / Qc_of_Z 1000 * Qc_of_Z 100))).
  intros T' T HT. qc_lra.
Qed.

(** X18: a speed entry never rises when the extra value rises, whatever the
    stat value and the intermediates passed with it, as long as the time
    constant is not negative; with a time constant of at least 1500 (the
    shortest base speed of the catalog) it strictly drops when the extra value
    rises by 14 or more.  This is the behaviour that the inverted search
    directions of the class rely on. *)
Theorem speed_entry_falls_as_extra_rises (baseSpeed : string)
    (timeConstant s s' e e' x x' : Decimal) (inter inter' : option Intermediates) :
  0 ≤ timeConstant → e ≤ e' →
  DerivedValue.calcFn (SpeedDerivedValue baseSpeed timeConstant) s e inter
  = Normal x →
  DerivedValue.calcFn (SpeedDerivedValue baseSpeed timeConstant) s' e' inter'
  = Normal x' →
  x' ≤ x
  ∧ (Dec.of_Z 1500 ≤ timeConstant → e + Dec.of_Z 14 ≤ e' → x' < x).
Proof.
  intros Htc He Hx Hx'. simpl in Hx, Hx'. unfold speed_calcFn in Hx, Hx'.
  injection Hx as <-. injection Hx' as <-. split.
  - by apply speed_value_antitone.
  - apply speed_value_drops.
Qed.

Lemma speed_entry_falls_as_extra_rises_witness :
  Q2Qc 2.46 ≤ Q2Qc 2.5 ∧ Q2Qc 2.46 < Q2Qc 2.5.
Proof.
  destruct (speed_entry_falls_as_extra_rises "2.5s" (Dec.of_Z 2500)
              (Dec.of_Z 380) (Dec.of_Z 736) (Dec.of_Z 0) (Dec.of_Z 14)
              (Q2Qc 2.5) (Q2Qc 2.46) None None) as [Hle Hlt].
  - compute_done.
  - compute_done.
  - compute_done.
  - compute_done.
  - split; [exact Hle | apply Hlt; compute_done].
Defined.

(** ** The method on the store *)

Lemma spec_field_at {A : Type} (k : nat) (field : DerivedValue.t → A)
    (this : Stat.t) (v : DerivedValue.t) :
  Stat.derivedValueDefns this !! k = Some v →
  Stat.Method.spec_field k field this = Some (Normal (field v), this).
Proof. unfold Stat.Method.spec_field. by intros ->. Qed.

Lemma method_recalc (k : nat) (v : DerivedValue.t) (this : Stat.t)
    (c : Decimal) :
  Stat.derivedValueDefns this !! k = Some v →
  Stat.Method.recalc k c this = Some (Stat.recalc this v c, this).
Proof.
  intros Hv. unfold Stat.Method.recalc, mbind, Action_bind.
  by rewrite (spec_field_at _ _ _ _ Hv).
Qed.

(** A loop whose condition and body leave the store as it is runs as the
    loop without a store, and leaves the store as it is. *)
Lemma while_on_js_while {S L : Type} (this : S) (fuel : nat)
    (cond_on : L → Action S (bool * L)) (body_on : L → Action S L)
    (cond : L → Completion (bool * L)) (body : L → Completion L) (l : L) :
  (∀ l, cond_on l this = Some (cond l, this)) →
  (∀ l, body_on l this = Some (body l, this)) →
  while_on fuel cond_on body_on l this
  = on_store this (js_while fuel cond body l).
Proof.
  intros Hcond Hbody. revert l. induction fuel as [|fuel IH]; intros l; [done|].
  simpl. unfold mbind at 1, Action_bind at 1. rewrite Hcond.
  destruct (cond l) as [[[|] l1]|e]; simpl; [|done..].
  unfold mbind at 1, Action_bind at 1. rewrite Hbody.
  destruct (body l1) as [l2|e]; simpl; [apply IH|done].
Qed.

Lemma method_lesser_search (fuel k : nat) (v : DerivedValue.t) (this : Stat.t)
    (realValue : Decimal) (s : Stat.search_state) :
  Stat.derivedValueDefns this !! k = Some v →
  while_on fuel (Stat.Method.lesser_cond k realValue)
    (Stat.Method.lesser_body k) s this
  = on_store this (js_while fuel (Stat.lesser_cond this v realValue)
                     (Stat.lesser_body v) s).
Proof.
  intros Hv. apply while_on_js_while.
  - intros [bp breaker]. unfold Stat.Method.lesser_cond, mbind, Action_bind.
    rewrite (method_recalc _ _ _ _ Hv). simpl.
    destruct (Stat.recalc this v bp) as [x|e]; simpl; [|done].
    by destruct (Dec.ge x realValue).
  - intros [bp breaker]. unfold Stat.Method.lesser_body, mbind, Action_bind.
    by rewrite (spec_field_at _ _ _ _ Hv).
Qed.

Lemma method_greater_search (fuel k : nat) (v : DerivedValue.t) (this : Stat.t)
    (realValue : Decimal) (s : Stat.search_state) :
  Stat.derivedValueDefns this !! k = Some v →
  while_on fuel (Stat.Method.greater_cond k realValue)
    (Stat.Method.greater_body k) s this
  = on_store this (js_while fuel (Stat.greater_cond this v realValue)
                     (Stat.greater_body v) s).
Proof.
  intros Hv. apply while_on_js_while.
  - intros [bp breaker]. unfold Stat.Method.greater_cond, mbind, Action_bind.
    rewrite (method_recalc _ _ _ _ Hv). simpl.
    destruct (Stat.recalc this v bp) as [x|e]; simpl; [|done].
    by destruct (Dec.le x realValue).
  - intros [bp breaker]. unfold Stat.Method.greater_body, mbind, Action_bind.
    by rewrite (spec_field_at _ _ _ _ Hv).
Qed.

(** The callback on the store computes what the callback computes from the
    store it starts in, and leaves that store as it is. *)
Lemma method_derivedValues_fn (fuel k : nat) (v : DerivedValue.t)
    (this : Stat.t) (m : Intermediates) :
  Stat.derivedValueDefns this !! k = Some v →
  Stat.Method.derivedValues_fn fuel k m this
  = on_store this (Stat.derivedValues_fn fuel this v m).
Proof.
  intros Hv. unfold Stat.Method.derivedValues_fn, Stat.derivedValues_fn.
  unfold mbind at 1, Action_bind at 1. rewrite (spec_field_at _ _ _ _ Hv).
  unfold mbind at 1 2 3, Action_bind at 1 2 3. simpl.
  unfold mbind at 1, Action_bind at 1. unfold no_effect at 1.
  destruct (DerivedValue.calcFn v _ _ _) as [realValue|e]; simpl; [|done].
  unfold mbind at 1, Action_bind at 1. rewrite (spec_field_at _ _ _ _ Hv).
  unfold mbind at 1, Action_bind at 1. unfold no_effect at 1.
  destruct (JsArray.set m _ realValue) as [m1|e]; simpl; [|done].
  unfold mbind at 1 2, Action_bind at 1 2. simpl.
  unfold mbind at 1, Action_bind at 1. rewrite (spec_field_at _ _ _ _ Hv).
  destruct (ToBoolean _).
  - unfold mbind at 1, Action_bind at 1. simpl.
    unfold mbind at 1, Action_bind at 1.
    rewrite (method_lesser_search _ _ _ _ _ _ Hv).
    unfold Stat.lesser_search, Stat.greater_search.
    destruct (js_while fuel (Stat.lesser_cond this v realValue) _ _)
      as [[l|e]|]; simpl; [|done..].
    unfold mbind at 1, Action_bind at 1. simpl.
    unfold mbind at 1, Action_bind at 1.
    rewrite (method_greater_search _ _ _ _ _ _ Hv).
    destruct (js_while fuel (Stat.greater_cond this v realValue) _ _)
      as [[g|e]|]; simpl; [|done..].
    unfold mbind, Action_bind. by rewrite !(spec_field_at _ _ _ _ Hv).
  - unfold mbind, Action_bind. by rewrite !(spec_field_at _ _ _ _ Hv).
Qed.

Lemma method_map_from (fuel : nat) (this : Stat.t) (remaining k : nat)
    (m : Intermediates) :
  length (drop k (Stat.derivedValueDefns this)) = remaining →
  Stat.Method.map_from fuel k remaining m this
  = on_store this
      (r ← array_map (Stat.derivedValues_fn fuel this)
             (drop k (Stat.derivedValueDefns this)) m;
       Done (Normal r.1)).
Proof.
  revert k m. induction remaining as [|remaining IH]; intros k m Hlen.
  - apply nil_length_inv in Hlen. by rewrite Hlen.
  - destruct (drop k (Stat.derivedValueDefns this)) as [|v rest] eqn:Hdrop;
      [discriminate|].
    assert (Stat.derivedValueDefns this !! k = Some v) as Hv.
    { rewrite <- (Nat.add_0_r k), <- lookup_drop. by rewrite Hdrop. }
    assert (drop (S k) (Stat.derivedValueDefns this) = rest) as Hrest.
    { replace (S k) with (k + 1)%nat by lia. by rewrite <- drop_drop, Hdrop. }
    injection Hlen as Hlen. simpl.
    unfold mbind at 1, Action_bind at 1.
    rewrite (method_derivedValues_fn _ _ _ _ _ Hv).
    destruct (Stat.derivedValues_fn fuel this v m) as [[[row m1]|e]|]; simpl;
      [|done..].
    unfold mbind at 1, Action_bind at 1.
    rewrite IH by (by rewrite Hrest). rewrite Hrest.
    by destruct (array_map _ rest m1) as [[[rows m2]|e]|].
Qed.

Lemma method_derivedValues (fuel : nat) (this : Stat.t) :
  Stat.Method.derivedValues_with fuel this
  = on_store this (Stat.derivedValues_with fuel this).
Proof.
  unfold Stat.Method.derivedValues_with, Stat.derivedValues_with.
  unfold mbind at 1, Action_bind at 1. simpl.
  by rewrite method_map_from.
Qed.

(** ** Redraws *)

Lemma method_call (stat : Stat.t) (c : Completion (list Entry.t)) :
  Stat.derivedValues stat = Done c →
  Stat.Method.derivedValues stat = Some (c, stat).
Proof.
  intros Hc. unfold Stat.Method.derivedValues.
  rewrite method_derivedValues. fold (Stat.derivedValues stat). by rewrite Hc.
Qed.

Lemma run_redraws (parseInt : string → JsNumber) (stat : Stat.t)
    (c : Completion (list Entry.t)) (n : nat) :
  Stat.derivedValues stat = Done c →
  StatBlock.run parseInt stat (replicate n StatBlock.Redraw)
  = Some (stat, replicate n c).
Proof.
  intros Hc. induction n as [|n IH]; [done|].
  cbn [replicate StatBlock.run StatBlock.step]. rewrite (method_call _ _ Hc).
  cbn. rewrite IH. done.
Qed.

(** C7: a call of [derivedValues] on the store ends with a completion [c]
    and leaves the store (the stat with its current value, its base, its
    rate and its specs) exactly as it found it; so a second call, with no
    edit in between, starts from the same store and ends with the same
    completion: the same rows, values and breakpoints, or the same
    exception.  The same holds for any number of calls in a row. *)
Theorem derivedValues_twice_same_rows (parseInt : string → JsNumber)
    (stat : Stat.t) :
  ∃ c : Completion (list Entry.t),
    Stat.Method.derivedValues stat = Some (c, stat)
    ∧ StatBlock.run parseInt stat [StatBlock.Redraw; StatBlock.Redraw]
      = Some (stat, [c; c])
    ∧ (∀ n : nat,
         StatBlock.run parseInt stat (replicate n StatBlock.Redraw)
         = Some (stat, replicate n c))
    ∧ Stat.derivedValues stat = Done c.
Proof.
  destruct (derivedValues_completes stat) as [c Hc]. exists c.
  split; [by apply method_call|].
  split; [apply (run_redraws parseInt stat c 2 Hc)|].
  split; [|done]. intros n. by apply run_redraws.
Qed.

(** ** Edits and clicks *)

Lemma parseInt_without_digit (value : string) :
  ParseInt.starts_with_digit value = false → ParseInt.parseInt value = JsNaN.
Proof.
  unfold ParseInt.starts_with_digit, ParseInt.parseInt.
  destruct (ParseInt.strip_sign (ParseInt.trim_start value)) as [negative s1].
  simpl. destruct s1 as [|c rest]; [done|].
  destruct c as [[] [] [] [] [] [] [] []]; intros Hdigit;
    solve [discriminate Hdigit | reflexivity].
Qed.

Lemma oninput_without_digit (value : string) (stat : Stat.t) :
  ParseInt.starts_with_digit value = false →
  StatBlock.oninput ParseInt.parseInt value stat
  = Some (Stat.set_currentValue (Dec.of_Z 0) stat).
Proof.
  intros Hdigit. unfold StatBlock.oninput.
  by rewrite (parseInt_without_digit _ Hdigit).
Qed.

Lemma catalog_at_zero :
  Forall (λ s, completes_normally
                 (Stat.derivedValues (Stat.set_currentValue (Dec.of_Z 0) s)) = true)
    StatList.stats.
Proof. repeat constructor; vm_compute; reflexivity. Qed.

(** C8, as amended: when the text of the input does not start, after
    leading white space and an optional sign, with a decimal digit, the
    handler sets the current value to 0 and changes nothing else; it does
    not raise, and the redraw that follows completes normally for every stat
    of the catalog.  The two buttons add 1 to, and subtract 1 from, the
    current value. *)
Theorem text_without_digit_gives_zero_and_buttons_step_by_one
    (value : string) (stat : Stat.t) :
  ParseInt.starts_with_digit value = false →
  StatBlock.oninput ParseInt.parseInt value stat
  = Some (Stat.set_currentValue (Dec.of_Z 0) stat)
  ∧ Forall (λ s, ∃ s',
              StatBlock.oninput ParseInt.parseInt value s = Some s'
              ∧ Stat.currentValue s' = Dec.of_Z 0
              ∧ completes_normally (Stat.derivedValues s') = true)
      StatList.stats
  ∧ Stat.currentValue (StatBlock.onclick_plus stat)
    = Stat.currentValue stat + Dec.of_Z 1
  ∧ Stat.currentValue (StatBlock.onclick_minus stat)
    = Stat.currentValue stat - Dec.of_Z 1.
Proof.
  intros Hdigit. split; [by apply oninput_without_digit|]. split; [|done].
  pose proof catalog_at_zero as Hzero.
  induction Hzero as [|s l Hs _ IH]; constructor; [|done].
  exists (Stat.set_currentValue (Dec.of_Z 0) s).
  split; [by apply oninput_without_digit|]. by split.
Qed.

Lemma text_without_digit_gives_zero_and_buttons_step_by_one_witness :
  ParseInt.starts_with_digit " -abc" = false
  ∧ StatBlock.oninput ParseInt.parseInt " -abc" StatList.Critical_Hit
    = Some (Stat.set_currentValue (Dec.of_Z 0) StatList.Critical_Hit).
Proof.
  assert (ParseInt.starts_with_digit " -abc" = false) as Hdigit by reflexivity.
  split; [exact Hdigit|].
  destruct (text_without_digit_gives_zero_and_buttons_step_by_one
              " -abc" StatList.Critical_Hit Hdigit)
    as (Hzero & _).
  exact Hzero.
Defined.

(** C8 as stated fails: the text [12abc] is not numeric, and the handler
    stores 12, not 0. *)
Lemma non_numeric_text_12abc_stores_12 :
  ParseInt.numeric "12abc" = false
  ∧ ParseInt.parseInt "12abc" = JsInt 12
  ∧ StatBlock.oninput ParseInt.parseInt "12abc" StatList.Critical_Hit
    = Some (Stat.set_currentValue (Dec.of_Z 12) StatList.Critical_Hit)
  ∧ Dec.of_Z 12 ≠ Dec.of_Z 0.
Proof.
  split; [reflexivity|]. split; [reflexivity|]. split; [reflexivity|].
  discriminate.
Qed.

Lemma run_cons_Some (parseInt : string → JsNumber) (stat stat' : Stat.t)
    (e : StatBlock.event) (events : list StatBlock.event)
    (outs : list (Completion (list Entry.t))) :
  StatBlock.run parseInt stat (e :: events) = Some (stat', outs) →
  ∃ stat1 out outs',
    StatBlock.step parseInt stat e = Some (stat1, out)
    ∧ StatBlock.run parseInt stat1 events = Some (stat', outs').
Proof.
  simpl. destruct (StatBlock.step parseInt stat e) as [[stat1 out]|];
    simpl; [|discriminate].
  destruct (StatBlock.run parseInt stat1 events) as [[stat2 outs']|] eqn:Hrun;
    simpl; [|discriminate].
  intros [= <- _]. by exists stat1, out, outs'.
Qed.

Lemma step_integer (parseInt : string → JsNumber) (stat stat' : Stat.t)
    (e : StatBlock.event) (out : option (Completion (list Entry.t))) :
  is_integer (Stat.currentValue stat) →
  StatBlock.step parseInt stat e = Some (stat', out) →
  is_integer (Stat.currentValue stat').
Proof.
  intros [n Hn]. destruct e as [value| | |]; simpl.
  - unfold StatBlock.oninput.
    destruct (parseInt value) as [|negative| |k]; simpl; try discriminate.
    + intros [= <- _]. by exists 0%Z.
    + intros [= <- _]. by exists 0%Z.
    + intros [= <- _]. by eexists.
  - intros [= <- _]. exists (n - 1)%Z. simpl. unfold Dec.of_Z.
    by rewrite Hn, Z2Qc_inj_sub.
  - intros [= <- _]. exists (n + 1)%Z. simpl. by rewrite Hn, of_Z_add.
  - destruct (derivedValues_completes stat) as [c Hc].
    rewrite (method_call _ _ Hc). simpl. intros [= <- _]. by exists n.
Qed.

(** X4: a current value that is a whole number stays a whole number under
    every sequence of edits, clicks and redraws that the model follows,
    that is, as long as no edit parses to an infinite Number: an edit stores
    0 or the whole number that the parsed Number spells, a button adds or
    subtracts 1, and a redraw stores nothing. *)
Theorem events_keep_currentValue_integer (parseInt : string → JsNumber)
    (stat stat' : Stat.t) (events : list StatBlock.event)
    (outs : list (Completion (list Entry.t))) :
  is_integer (Stat.currentValue stat) →
  StatBlock.run parseInt stat events = Some (stat', outs) →
  is_integer (Stat.currentValue stat').
Proof.
  revert stat outs. induction events as [|e events IH]; intros stat outs Hint.
  - by intros [= <- _].
  - intros Hrun.
    apply run_cons_Some in Hrun as (stat1 & out & outs' & Hstep & Hrun).
    apply (IH stat1 outs'); [|done]. by apply (step_integer _ _ _ _ _ Hint Hstep).
Qed.

Lemma events_keep_currentValue_integer_witness :
  ∃ (stat' : Stat.t) (outs : list (Completion (list Entry.t))),
    StatBlock.run ParseInt.parseInt StatList.Piety
      [StatBlock.Input "12abc"; StatBlock.Plus; StatBlock.Redraw;
       StatBlock.Input "x"; StatBlock.Minus] = Some (stat', outs)
    ∧ is_integer (Stat.currentValue stat').
Proof.
  destruct (StatBlock.run ParseInt.parseInt StatList.Piety
              [StatBlock.Input "12abc"; StatBlock.Plus; StatBlock.Redraw;
               StatBlock.Input "x"; StatBlock.Minus])
    as [[stat' outs]|] eqn:Hrun.
  - exists stat', outs. split; [reflexivity|].
    apply (events_keep_currentValue_integer ParseInt.parseInt StatList.Piety
             stat'
             [StatBlock.Input "12abc"; StatBlock.Plus; StatBlock.Redraw;
              StatBlock.Input "x"; StatBlock.Minus] outs);
      [by exists 340%Z | exact Hrun].
  - vm_compute in Hrun. discriminate Hrun.
Defined.






